(** * Migration engine of edgedb-cli: linearizer, schema reader,
      migration writer and the [create-migration] orchestrator.

    Shallow embedding of
    - [src/src/migrations/db_migration.rs]  (record decoding, [linearize_db_migrations])
    - [src/src/migrations/create.rs]        ([read_schema_file], [gen_start_migration],
                                             [run_non_interactive], [_write_migration],
                                             [create]). *)

From Stdlib Require Import String Ascii List PrimFloat.
From stdpp Require Import base gmap strings list.

Open Scope string_scope.

(* ===================================================================== *)
(** ** Errors and results ([anyhow::Result]) *)
(* ===================================================================== *)

(** [anyhow::Error]: a message, an I/O error on a path, an error reported
    by the connection or the decoder, or a [#[context]] wrapper. [EFuel]
    marks a loop that the source does not bound running past the bound
    chosen by the model. *)
Inductive error :=
| EMsg (msg : string)
| EIo (op : string) (p : list string)
| EProtocol (msg : string)
| EContext (ctx : string) (inner : error)
| EFuel.

Inductive Result (A : Type) := Ok (a : A) | Err (e : error).
Arguments Ok {A} a.
Arguments Err {A} e.

(** [Result::and] *)
Definition result_and {A B} (r1 : Result A) (r2 : Result B) : Result B :=
  match r1 with Ok _ => r2 | Err e => Err e end.

(* ===================================================================== *)
(** ** db_migration.rs *)
(* ===================================================================== *)

Module DbMigration.

(** [enum MigrationGeneratedBy] (derived [Queryable], closed). *)
Inductive MigrationGeneratedBy := DevMode | DDLStatement.

(** [trait SortableMigration]; [iter_parents] yields the parent names in order. *)
Class SortableMigration (M : Type) := {
  name : M -> string;
  is_root : M -> bool;
  iter_parents : M -> list string;
}.

(** The derived [Queryable] decoder of the closed enum: the server sends
    the enum value's name; any other name is a decoding error. *)
Definition decode_generated_by (tag : string) : Result MigrationGeneratedBy :=
  if String.eqb tag "DevMode" then Ok DevMode
  else if String.eqb tag "DDLStatement" then Ok DDLStatement
  else Err (EProtocol ("unexpected enum value " ++ tag)).

(** [struct DBMigration]. *)
Record DBMigration := {
  mig_name : string;
  script : string;
  parent_names : list string;
  generated_by : option MigrationGeneratedBy;
}.

(** A migration record as the server sends it, before decoding. *)
Record RawMigration := {
  raw_name : string;
  raw_script : string;
  raw_parent_names : list string;
  raw_generated_by : option string;
}.

(** The derived [Queryable] decoder of [DBMigration]. *)
Definition decode_db_migration (r : RawMigration) : Result DBMigration :=
  match raw_generated_by r with
  | None =>
      Ok {| mig_name := raw_name r; script := raw_script r;
            parent_names := raw_parent_names r; generated_by := None |}
  | Some tag =>
      match decode_generated_by tag with
      | Ok g =>
          Ok {| mig_name := raw_name r; script := raw_script r;
                parent_names := raw_parent_names r; generated_by := Some g |}
      | Err e => Err e
      end
  end.

#[global] Instance DBMigration_sortable : SortableMigration DBMigration := {
  name := mig_name;
  is_root m := match parent_names m with [] => true | _ => false end;
  iter_parents := parent_names;
}.

(** [Vec::pop]: removes and returns the last element. *)
Definition vec_pop {A} (v : list A) : option (A * list A) :=
  match rev v with
  | [] => None
  | x :: r => Some (x, rev r)
  end.

(** [IndexMap::insert]: an existing key keeps its position and gets the
    new value; a new key is appended at the end. *)
Fixpoint index_insert {V} (k : string) (v : V) (m : list (string * V))
  : list (string * V) :=
  match m with
  | [] => [(k, v)]
  | (k', v') :: m' =>
      if String.eqb k k' then (k, v) :: m' else (k', v') :: index_insert k v m'
  end.

Section Linearize.
Context {M : Type} `{SortableMigration M}.

(** [by_parent.entry(parent).or_insert_with(Vec::new).push(item)] *)
Definition entry_push (k : string) (x : M) (bp : gmap string (list M))
  : gmap string (list M) :=
  <[k := (default [] (bp !! k) ++ [x])%list]> bp.

(** The first loop of [linearize_db_migrations]. *)
Definition build_by_parent (migrations : list M) : gmap string (list M) :=
  fold_left (fun bp item =>
      fold_left (fun bp parent => entry_push parent item bp) (iter_parents item) bp)
    migrations ∅.

(** [for child in children { if !visited.contains(child.name()) { queue.push(child) } }] *)
Definition push_children (visited : gset string) (children : list M) (queue : list M)
  : list M :=
  fold_left (fun q child =>
      if bool_decide (name child ∈ visited) then q else (q ++ [child])%list)
    children queue.

(** The [while let Some(item) = queue.pop()] loop.  [fuel] bounds the
    number of iterations; [None] means the bound was reached. *)
Fixpoint lin_loop (fuel : nat) (by_parent : gmap string (list M))
    (visited : gset string) (queue : list M) (output : list (string * M))
  : option (list (string * M)) :=
  match fuel with
  | O => None
  | S fuel' =>
      match vec_pop queue with
      | None => Some output
      | Some (item, queue) =>
          let output := index_insert (name item) item output in
          let visited := {[name item]} ∪ visited in
          match by_parent !! name item with
          | Some children =>
              lin_loop fuel' (delete (name item) by_parent) visited
                (push_children visited children queue) output
          | None => lin_loop fuel' by_parent visited queue output
          end
      end
  end.

Definition roots (migrations : list M) : list M :=
  List.filter (fun item => is_root item) migrations.

(** One iteration per pushed element suffices: the roots, and at most one
    push per (record, parent name) pair, plus the final empty pop. *)
Definition lin_fuel (migrations : list M) : nat :=
  S (length (roots migrations)
     + sum_list_with (fun item => length (iter_parents item)) migrations).

Definition linearize_opt (migrations : list M) : option (list (string * M)) :=
  lin_loop (lin_fuel migrations) (build_by_parent migrations) ∅ (roots migrations) [].

(** [linearize_db_migrations]; the fallback branch is never taken
    (see [linearize_terminates]). *)
Definition linearize_db_migrations (migrations : list M) : list (string * M) :=
  default [] (linearize_opt migrations).

(** A record is reachable when it is a root of the input, or a child
    (through one of its parent names) of a reachable record of the input. *)
Inductive reachable (migrations : list M) : M -> Prop :=
| reach_root m :
    In m migrations -> is_root m = true -> reachable migrations m
| reach_child r m :
    reachable migrations r -> In m migrations -> In (name r) (iter_parents m) ->
    reachable migrations m.

(** Total length of the child lists still in [by_parent]. *)
Definition bp_size (bp : gmap string (list M)) : nat :=
  map_fold (fun _ l acc => length l + acc) 0 bp.

End Linearize.

(** The example of the spec: A; B <- A; C <- A; D <- B, C. *)
Definition mk (n : string) (ps : list string) : DBMigration :=
  {| mig_name := n; script := EmptyString; parent_names := ps; generated_by := None |}.

Definition diamond : list DBMigration :=
  [mk "A" []; mk "B" ["A"]; mk "C" ["A"]; mk "D" ["B"; "C"]].

End DbMigration.

(* ===================================================================== *)
(** ** create.rs *)
(* ===================================================================== *)

Module Create.

(** *** Paths and the filesystem *)

(** A path as its list of components. *)
Definition path := list string.

(** [Path::parent] (of a path with a file name). *)
Definition path_parent (p : path) : path := removelast p.

(** [Path::file_name] *)
Definition file_name (p : path) : string := List.last p EmptyString.

(** [Path::join] with one component. *)
Definition join (p : path) (n : string) : path := (p ++ [n])%list.

(** [Path::display] *)
Definition display (p : path) : string := String.concat "/" p.

(** The filesystem: regular files with their contents, and directories. *)
Record FS := {
  fs_files : gmap path string;
  fs_dirs : gset path;
}.

(** The operations a run issues, in order: to the server and to the
    filesystem, and the lines printed on stderr. *)
Inductive event :=
| EvExecute (text : string)
| EvQuery (text : string)
| EvEprint (line : string)
| EvReadDir (p : path)
| EvFileType (p : path)
| EvReadFile (p : path)
| EvCreateDirAll (p : path)
| EvRemoveFile (p : path)
| EvCreateFile (p : path)
| EvWrite (p : path) (data : string)
| EvFlush (p : path)
| EvRename (src dst : path).

(** The operations that change the filesystem. *)
Definition is_fs_write (ev : event) : bool :=
  match ev with
  | EvCreateDirAll _ | EvRemoveFile _ | EvCreateFile _ | EvWrite _ _
  | EvFlush _ | EvRename _ _ => true
  | _ => false
  end.

(** *** Data exchanged with the server *)

Record RequiredUserInput := { rui_name : string; rui_prompt : string }.

Record StatementProposal := {
  text : string;
  required_user_input : list RequiredUserInput;
}.

Record Proposal := {
  statements : list StatementProposal;
  confidence : float;
  prompt : option string;
}.

Record CurrentMigration := {
  confirmed : list string;
  proposed : list Proposal;
}.

#[warnings="-inexact-float"]
Definition SAFE_CONFIDENCE : float := 0.99999%float.

Definition DESCRIBE_QUERY : string := "DESCRIBE CURRENT MIGRATION AS JSON".

(** The query for the migration that has no children (text abridged). *)
Definition LAST_QUERY : string :=
  "WITH Last := (SELECT schema::Migration FILTER NOT EXISTS .<parents[IS schema::Migration]) SELECT name := Last.name".

(** The database connection: each method answers one kind of request and
    moves the server to its next state. *)
Class Server (S : Type) := {
  srv_execute : string -> S -> Result unit * S;
  srv_describe : S -> Result CurrentMigration * S;
  srv_last_migration : S -> Result (option string) * S;
}.

(** The edgeql preparser ([edgeql_parser::preparser], another crate):
    [full_statement] gives the length of the first complete statement. *)
Class Preparser := {
  full_statement : string -> option nat;
  is_empty : string -> bool;
}.

(** [migration::Hasher], which is not in src: only its interface is used,
    so it is left abstract. *)
Class MigrationHasher := {
  Hasher : Type;
  hasher_new : string -> Hasher;
  hasher_source : Hasher -> string -> Result Hasher;
  hasher_make_id : Hasher -> string;
}.

(** Modelled from the spec: [migrations::context::Context], which is not in
    src; the only field used here is the schema directory. *)
Record Context := { schema_dir : path }.

(** [commands::parser::CreateMigration]; [cfg] is reduced to the context
    it is turned into by [Context::from_config]. *)
Record CreateMigration := {
  cfg : Context;
  non_interactive : bool;
}.

(** Modelled from the spec: [migration::read_all], which is not in src,
    reads the on-disk history into a map from migration id to file, in
    sequence order; it is left abstract (any function of the filesystem). *)
Class LocalHistory := {
  read_all : Context -> FS -> Result (list (string * string));
}.

(** *** The world and the monad *)

Record World (S : Type) := {
  w_srv : S;
  w_fs : FS;
  w_log : list event;
  (** which filesystem operations the environment makes fail *)
  w_io_fails : event -> bool;
  (** how many bytes the file accepts for one [write] call that reaches
      it ([io::Write::write] may accept fewer than offered) *)
  w_accept : path -> string -> nat;
}.
Arguments w_srv {S}. Arguments w_fs {S}. Arguments w_log {S}.
Arguments w_io_fails {S}. Arguments w_accept {S}.

Definition set_srv {S} (s : S) (w : World S) : World S :=
  {| w_srv := s; w_fs := w_fs w; w_log := w_log w;
     w_io_fails := w_io_fails w; w_accept := w_accept w |}.
Definition set_fs {S} (fs : FS) (w : World S) : World S :=
  {| w_srv := w_srv w; w_fs := fs; w_log := w_log w;
     w_io_fails := w_io_fails w; w_accept := w_accept w |}.
Definition log_ev {S} (ev : event) (w : World S) : World S :=
  {| w_srv := w_srv w; w_fs := w_fs w; w_log := (w_log w ++ [ev])%list;
     w_io_fails := w_io_fails w; w_accept := w_accept w |}.

(** An async function returning [anyhow::Result<A>]. *)
Definition Mon (S A : Type) : Type := World S -> Result A * World S.

#[global] Instance Mon_ret S : MRet (Mon S) := fun A a w => (Ok a, w).
#[global] Instance Mon_bind S : MBind (Mon S) := fun A B k m w =>
  match m w with
  | (Ok a, w') => k a w'
  | (Err e, w') => (Err e, w')
  end.

(** [anyhow::bail!] and [?] on a plain [Result]. *)
Definition fail {S A} (e : error) : Mon S A := fun w => (Err e, w).
Definition lift {S A} (r : Result A) : Mon S A := fun w => (r, w).

(** Awaiting without [?]: the result is kept as a value. *)
Definition attempt {S A} (m : Mon S A) : Mon S (Result A) :=
  fun w => let '(r, w') := m w in (Ok r, w').

(** [#[context("...")]] *)
Definition with_context {S A} (ctx : string) (m : Mon S A) : Mon S A :=
  fun w => match m w with
           | (Err e, w') => (Err (EContext ctx e), w')
           | r => r
           end.

(** *** Strings *)

Definition nl : string := String "010"%char EmptyString.
Definition cr_char : ascii := "013"%char.

(** [&s[n..]] *)
Definition str_drop (n : nat) (s : string) : string :=
  substring n (String.length s - n) s.

Definition ends_with (suffix s : string) : bool :=
  Nat.leb (String.length suffix) (String.length s)
  && String.eqb (str_drop (String.length s - String.length suffix) s) suffix.

(** Drop one trailing carriage return. *)
Definition strip_cr (l : string) : string :=
  match String.length l with
  | O => l
  | S k => match String.get k l with
           | Some c => if Ascii.eqb c cr_char then substring 0 k l else l
           | None => l
           end
  end.

(** [str::lines]: split at each line feed, strip the carriage return of a
    [\r\n] ending; a final line ending does not start an empty line. *)
Fixpoint lines_from (s : string) (cur : string) : list string :=
  match s with
  | EmptyString => if String.eqb cur EmptyString then [] else [cur]
  | String c rest =>
      if Ascii.eqb c "010"%char then strip_cr cur :: lines_from rest EmptyString
      else lines_from rest (cur ++ String c EmptyString)
  end.

Definition lines (s : string) : list string := lines_from s EmptyString.

(** Decimal rendering of a [u64], and [format!("{:05}", n)]. *)
Fixpoint dec_aux (fuel n : nat) (acc : string) : string :=
  match fuel with
  | O => acc
  | S fuel' =>
      let acc' := String (ascii_of_nat (48 + n mod 10)) acc in
      if Nat.ltb n 10 then acc' else dec_aux fuel' (n / 10) acc'
  end.

Definition dec (n : nat) : string := dec_aux (S n) n EmptyString.

Fixpoint zeros (k : nat) : string :=
  match k with O => EmptyString | S k' => String "0"%char (zeros k') end.

Definition format05 (n : nat) : string :=
  let d := dec n in zeros (5 - String.length d) ++ d.

(** *** Source map *)

Inductive SourceName := Prefix | Suffix | File (p : path).

(** Modelled from the spec: [sourcemap::Builder], which is not in src.
    [add_lines] appends a labelled chunk unchanged. *)
Definition Builder := list (SourceName * string).

Definition builder_new : Builder := [].

Definition add_lines (bld : Builder) (name : SourceName) (chunk : string) : Builder :=
  (bld ++ [(name, chunk)])%list.

(** Modelled from the spec: a source map entry gives the label of a chunk,
    its first output line and its number of lines. *)
Record SourceMapEntry := {
  sm_source : SourceName;
  sm_start_line : nat;
  sm_line_count : nat;
}.

(** Modelled from the spec: [Builder::done] emits every line of every chunk
    as one output line, numbered from 1. *)
Fixpoint done_from (line : nat) (bld : Builder) : string * list SourceMapEntry :=
  match bld with
  | [] => (EmptyString, [])
  | (name, chunk) :: rest =>
      let ls := lines chunk in
      let '(out, sm) := done_from (line + length ls) rest in
      (String.concat EmptyString (map (fun l => l ++ nl) ls) ++ out,
       {| sm_source := name; sm_start_line := line; sm_line_count := length ls |} :: sm)
  end.

Definition done (bld : Builder) : string * list SourceMapEntry := done_from 1 bld.

(** *** Primitive operations *)

Section Ops.
Context {St : Type} `{Server St}.

(** [cli.execute(text)] *)
Definition execute (q : string) : Mon St unit := fun w =>
  let w := log_ev (EvExecute q) w in
  let '(r, s) := srv_execute q (w_srv w) in (r, set_srv s w).

(** [cli.query_row::<CurrentMigration>("DESCRIBE CURRENT MIGRATION AS JSON", ..)] *)
Definition query_describe : Mon St CurrentMigration := fun w =>
  let w := log_ev (EvQuery DESCRIBE_QUERY) w in
  let '(r, s) := srv_describe (w_srv w) in (r, set_srv s w).

(** [cli.query_row_opt::<String>(LAST_QUERY, ..)] *)
Definition query_last : Mon St (option string) := fun w =>
  let w := log_ev (EvQuery LAST_QUERY) w in
  let '(r, s) := srv_last_migration (w_srv w) in (r, set_srv s w).

(** [eprintln!] *)
Definition eprintln (line : string) : Mon St unit := fun w =>
  (Ok tt, log_ev (EvEprint line) w).

(** A filesystem call: logged, then failing when the environment says so,
    else running [k] on the filesystem. *)
Definition io_call {A} (ev : event) (op : string) (p : path)
    (k : FS -> option (A * FS)) : Mon St A := fun w =>
  let w := log_ev ev w in
  if w_io_fails w ev then (Err (EIo op p), w)
  else match k (w_fs w) with
       | Some (a, fs) => (Ok a, set_fs fs w)
       | None => (Err (EIo op p), w)
       end.

(** The entries of a directory, in the iteration order of the model. *)
Definition dir_entries (fs : FS) (d : path) : list path :=
  List.filter (fun p => bool_decide (p <> [] /\ path_parent p = d))
    (map fst (map_to_list (fs_files fs)) ++ elements (fs_dirs fs))%list.

(** [fs::read_dir] *)
Definition read_dir (d : path) : Mon St (list path) :=
  io_call (EvReadDir d) "read_dir" d (fun fs =>
    if bool_decide (d ∈ fs_dirs fs) then Some (dir_entries fs d, fs) else None).

(** [item.file_type().await?.is_file()] *)
Definition file_type_is_file (p : path) : Mon St bool :=
  io_call (EvFileType p) "file_type" p (fun fs =>
    Some (bool_decide (is_Some (fs_files fs !! p)), fs)).

(** [fs::read_to_string] *)
Definition read_to_string (p : path) : Mon St string :=
  io_call (EvReadFile p) "read" p (fun fs =>
    match fs_files fs !! p with Some c => Some (c, fs) | None => None end).

(** [Path::exists] *)
Definition path_exists (p : path) : Mon St bool := fun w =>
  (Ok (bool_decide (is_Some (fs_files (w_fs w) !! p) \/ p ∈ fs_dirs (w_fs w))), w).

(** [fs::create_dir_all]: the directory and all its ancestors. *)
Definition create_dir_all (d : path) : Mon St unit :=
  io_call (EvCreateDirAll d) "create_dir_all" d (fun fs =>
    Some (tt, {| fs_files := fs_files fs;
                 fs_dirs := list_to_set (map (fun n => take n d) (seq 1 (length d)))
                            ∪ fs_dirs fs |})).

(** [fs::remove_file] *)
Definition remove_file (p : path) : Mon St unit :=
  io_call (EvRemoveFile p) "remove_file" p (fun fs =>
    match fs_files fs !! p with
    | Some _ => Some (tt, {| fs_files := delete p (fs_files fs); fs_dirs := fs_dirs fs |})
    | None => None
    end).

(** [fs::File::create]: creates or truncates; the directory must exist. *)
Definition create_file (p : path) : Mon St unit :=
  io_call (EvCreateFile p) "create" p (fun fs =>
    if bool_decide (path_parent p ∈ fs_dirs fs)
    then Some (tt, {| fs_files := <[p := EmptyString]> (fs_files fs); fs_dirs := fs_dirs fs |})
    else None).

(** The capacity of [io::BufWriter::new] (async-std's [DEFAULT_CAPACITY]). *)
Definition BUF_CAPACITY : nat := 8 * 1024.

(** [file.write(data)] on the [io::BufWriter] wrapping the file. The
    contents kept for [p] are the bytes handed over so far: those the file
    took, followed by those still in the writer's buffer. async-std's
    [BufWriter::poll_write] first flushes its buffer when [data] does not
    fit (writing the whole buffer, or failing); then a buffer shorter than
    the capacity is copied into it in full, while a longer one goes to the
    file in one [write], which may accept only a prefix. Either way the
    accepted count is returned; a failure of that flush or write is a
    failure of the [write] call. *)
Definition write (p : path) (data : string) : Mon St nat := fun w =>
  let n := if Nat.ltb (String.length data) BUF_CAPACITY then String.length data
           else Nat.min (w_accept w p data) (String.length data) in
  io_call (EvWrite p data) "write" p (fun fs =>
    Some (n, {| fs_files := <[p := default EmptyString (fs_files fs !! p) ++ substring 0 n data]>
                              (fs_files fs);
                fs_dirs := fs_dirs fs |})) w.

(** [file.flush()] *)
Definition flush (p : path) : Mon St unit :=
  io_call (EvFlush p) "flush" p (fun fs => Some (tt, fs)).

(** [fs::rename] *)
Definition rename (src dst : path) : Mon St unit :=
  io_call (EvRename src dst) "rename" src (fun fs =>
    match fs_files fs !! src with
    | Some c => Some (tt, {| fs_files := <[dst := c]> (delete src (fs_files fs));
                             fs_dirs := fs_dirs fs |})
    | None => None
    end).

End Ops.

(** *** The functions of create.rs *)

Section CreateRs.
Context {St : Type} `{Server St} `{Preparser} `{MigrationHasher} `{LocalHistory}.

(** The [loop] of [read_schema_file] over the statements of [data];
    [fuel] bounds its iterations. *)
Fixpoint read_schema_loop (fuel : nat) (data : string) (offset : nat) : Result string :=
  match fuel with
  | O => Err EFuel
  | S fuel' =>
      match full_statement (str_drop offset data) with
      | Some shift => read_schema_loop fuel' data (offset + shift)
      | None =>
          if negb (is_empty (str_drop offset data))
          then Err (EMsg "final statement does not end with a semicolon")
          else Ok data
      end
  end.

Definition read_schema_file (p : path) : Mon St string :=
  with_context ("could not read schema file " ++ display p)
    (data ← read_to_string p;
     lift (read_schema_loop (S (String.length data)) data 0)).

(** One iteration of the [while let Some(item) = dir.next()] loop of
    [gen_start_migration]. *)
Definition add_schema_entry (bld : Builder) (item : path) : Mon St Builder :=
  let lossy_name := file_name item in
  mbind (fun skip_item : bool =>
    if skip_item then mret bld
    else chunk ← read_schema_file item;
         mret (add_lines bld (File item) chunk))
  (if String.prefix "." lossy_name || negb (ends_with ".esdl" lossy_name)
   then mret true
   else is_file ← file_type_is_file item; mret (negb is_file)).

Fixpoint add_schema_entries (bld : Builder) (items : list path) : Mon St Builder :=
  match items with
  | [] => mret bld
  | item :: rest => bld ← add_schema_entry bld item; add_schema_entries bld rest
  end.

Definition gen_start_migration (ctx : Context) : Mon St (string * list SourceMapEntry) :=
  with_context ("could not read schema in " ++ display (schema_dir ctx))
    (let bld := add_lines builder_new Prefix "START MIGRATION TO {" in
     items ← read_dir (schema_dir ctx);
     bld ← add_schema_entries bld items;
     let bld := add_lines bld Suffix "};" in
     mret (done bld)).

(** [for input in statement.required_user_input { eprintln!(..) }] *)
Fixpoint eprint_inputs (inputs : list RequiredUserInput) : Mon St unit :=
  match inputs with
  | [] => mret tt
  | input :: rest => eprintln ("Input required: " ++ rui_prompt input) ;; eprint_inputs rest
  end.

(** [for statement in proposal.statements { .. }] *)
Fixpoint apply_statements (stmts : list StatementProposal) : Mon St unit :=
  match stmts with
  | [] => mret tt
  | statement :: rest =>
      if negb (bool_decide (required_user_input statement = []))
      then eprint_inputs (required_user_input statement) ;;
           fail (EMsg ("cannot apply `" ++ text statement ++ "` without user input"))
      else execute (text statement) ;; apply_statements rest
  end.

(** [for proposal in data.proposed { if proposal.confidence >= SAFE_CONFIDENCE { .. } }] *)
Fixpoint apply_proposals (ps : list Proposal) : Mon St unit :=
  match ps with
  | [] => mret tt
  | proposal :: rest =>
      (if PrimFloat.leb SAFE_CONFIDENCE (confidence proposal)
       then apply_statements (statements proposal) else mret tt) ;;
      apply_proposals rest
  end.

(** The describe [loop] of [run_non_interactive]; [fuel] bounds its rounds,
    which the source does not bound. *)
Fixpoint describe_loop (fuel : nat) : Mon St CurrentMigration :=
  match fuel with
  | O => fail EFuel
  | S fuel' =>
      data ← query_describe;
      if bool_decide (proposed data = []) then mret data
      else apply_proposals (proposed data) ;; describe_loop fuel'
  end.

(** [for statement in &statements { hasher.source(&statement)?; }] *)
Fixpoint hash_statements (hasher : Hasher) (stmts : list string) : Result Hasher :=
  match stmts with
  | [] => Ok hasher
  | statement :: rest =>
      match hasher_source hasher statement with
      | Ok hasher' => hash_statements hasher' rest
      | Err e => Err e
      end
  end.

(** [for line in statement.lines() { file.write(..) }] *)
Fixpoint write_lines (p : path) (ls : list string) : Mon St unit :=
  match ls with
  | [] => mret tt
  | line :: rest => write p ("  " ++ line ++ nl) ;; write_lines p rest
  end.

Fixpoint write_statements (p : path) (stmts : list string) : Mon St unit :=
  match stmts with
  | [] => mret tt
  | statement :: rest => write_lines p (lines statement) ;; write_statements p rest
  end.

(** The name of the temporary file next to [filepath]. *)
Definition tmp_path (filepath : path) : path :=
  join (path_parent filepath) (".~" ++ file_name filepath ++ ".tmp").

Definition _write_migration (descr : CurrentMigration) (parent : string)
    (filepath : path) : Mon St unit :=
  with_context ("could not write migration file " ++ display filepath)
    (let statements := map (fun s => s ++ ";") (confirmed descr) in
     hasher ← lift (hash_statements (hasher_new parent) statements);
     let id := hasher_make_id hasher in
     let dir := path_parent filepath in
     let tmp_file := join dir (".~" ++ file_name filepath ++ ".tmp") in
     exists_ ← path_exists filepath;
     (if negb exists_ then create_dir_all dir else mret tt) ;;
     attempt (remove_file tmp_file) ;;
     create_file tmp_file ;;
     write tmp_file ("CREATE MIGRATION " ++ id ++ nl) ;;
     write tmp_file ("    ONTO " ++ parent ++ nl) ;;
     write tmp_file ("{" ++ nl) ;;
     write_statements tmp_file statements ;;
     write tmp_file ("};" ++ nl) ;;
     flush tmp_file ;;
     rename tmp_file filepath ;;
     mret tt).

Definition write_migration (ctx : Context) (descr : CurrentMigration) (parent : string)
    (index : nat) : Mon St unit :=
  let dir := join (schema_dir ctx) "migrations" in
  let filename := join dir (format05 index ++ ".edgeql") in
  _write_migration descr parent filename.

Definition run_non_interactive (fuel : nat) (ctx : Context) (index : nat) : Mon St unit :=
  descr ← describe_loop fuel;
  parent ← query_last;
  let parent := default "initial" parent in
  write_migration ctx descr parent index ;;
  mret tt.

Definition VALIDATION_MSG : string :=
  "Database must be updated to the last miration on the filesystem for `create-migration`. Run:"
  ++ nl ++ "  edgedb migrate".

Definition INTERACTIVE_MSG : string :=
  "interactive mode is not implemented yet, try:"
  ++ nl ++ "  edgedb create-migration --non-interactive".

(** [migrations.keys().last()] *)
Definition last_key (m : list (string * string)) : option string := fst <$> last m.

(** [create]; [fuel] bounds the describe loop. *)
Definition create (fuel : nat) (c : CreateMigration) : Mon St unit :=
  let ctx := cfg c in
  migrations ← (fun w => (read_all ctx (w_fs w), w));
  '(text, sourcemap) ← gen_start_migration ctx;
  execute text ;;
  db_migration ← query_last;
  if negb (bool_decide (db_migration = last_key migrations))
  then fail (EMsg VALIDATION_MSG)
  else if non_interactive c
  then exec ← attempt (run_non_interactive fuel ctx (length migrations + 1));
       abort ← attempt (execute "ABORT MIGRATION");
       lift (result_and exec abort) ;;
       mret tt
  else fail (EMsg INTERACTIVE_MSG).

End CreateRs.

End Create.

(* ===================================================================== *)
(** ** Concrete environments, used to evaluate the code on examples *)
(* ===================================================================== *)

Module Scenarios.
Import Create.

(** A scripted server: a fixed tip, the successive answers to DESCRIBE, and
    the statements the server rejects. *)
Record ScriptedServer := {
  ss_tip : Result (option string);
  ss_describe : list (Result CurrentMigration);
  ss_rejects : list (string * error);
}.

#[export] Instance scripted_server : Server ScriptedServer := {
  srv_execute q s :=
    (match find (fun '(t, _) => String.eqb t q) (ss_rejects s) with
     | Some (_, e) => Err e
     | None => Ok tt
     end, s);
  srv_describe s :=
    match ss_describe s with
    | [] => (Err (EProtocol "no migration in progress"), s)
    | r :: rest => (r, {| ss_tip := ss_tip s; ss_describe := rest; ss_rejects := ss_rejects s |})
    end;
  srv_last_migration s := (ss_tip s, s);
}.

Definition is_space (c : ascii) : bool :=
  Ascii.eqb c " "%char || Ascii.eqb c "010"%char || Ascii.eqb c "013"%char
  || Ascii.eqb c "009"%char.

Fixpoint first_semicolon (s : string) (i : nat) : option nat :=
  match s with
  | EmptyString => None
  | String c rest => if Ascii.eqb c ";"%char then Some (S i) else first_semicolon rest (S i)
  end.

Fixpoint all_space (s : string) : bool :=
  match s with
  | EmptyString => true
  | String c rest => is_space c && all_space rest
  end.

(** A preparser for plain statements (no strings, comments or blocks). *)
#[export] Instance simple_preparser : Preparser := {
  full_statement s := first_semicolon s 0;
  is_empty := all_space;
}.

(** A hasher that names a migration after the text it has seen. *)
#[export] Instance concat_hasher : MigrationHasher := {
  Hasher := string;
  hasher_new parent := parent;
  hasher_source h s := Ok (h ++ "|" ++ s);
  hasher_make_id h := "m" ++ dec (String.length h);
}.

(** The on-disk history: the files of [<schema>/migrations], each keyed by
    its content. *)
#[export] Instance files_history : LocalHistory := {
  read_all ctx fs :=
    Ok (map (fun '(_, c) => (c, c))
          (List.filter (fun '(p, _) =>
              bool_decide (path_parent p = join (schema_dir ctx) "migrations"))
             (map_to_list (fs_files fs))));
}.

Definition schema : path := ["dbschema"].
Definition mig_dir : path := ["dbschema"; "migrations"].

(** A schema directory with one applied migration [m1] on disk. *)
Definition fs_m1 : FS := {|
  fs_files := {[ join mig_dir "00001.edgeql" := "m1" ]};
  fs_dirs := {[ schema; mig_dir ]};
|}.

Definition world (s : ScriptedServer) (fs : FS) : World ScriptedServer := {|
  w_srv := s; w_fs := fs; w_log := [];
  w_io_fails := fun _ => false;
  w_accept := fun _ data => String.length data;
|}.

Definition create_cmd : CreateMigration :=
  {| cfg := {| schema_dir := schema |}; non_interactive := true |}.

(** A server that accepts every statement. *)
#[export] Instance accepting_server : Server unit := {
  srv_execute _ s := (Ok tt, s);
  srv_describe s := (Err (EProtocol "no migration in progress"), s);
  srv_last_migration s := (Ok None, s);
}.

Definition unit_world : World unit := {|
  w_srv := tt; w_fs := {| fs_files := ∅; fs_dirs := ∅ |}; w_log := [];
  w_io_fails := fun _ => false;
  w_accept := fun _ data => String.length data;
|}.

Definition stmt (t : string) (prompts : list string) : StatementProposal :=
  {| text := t;
     required_user_input := map (fun q => {| rui_name := q; rui_prompt := q |}) prompts |}.

(** A safe proposal whose second statement needs input, then an unsafe one. *)
#[warnings="-inexact-float"]
Definition mixed_proposals : list Proposal := [
  {| statements := [stmt "CREATE TYPE A" []; stmt "ALTER TYPE A" ["new default?"]];
     confidence := 1.0%float; prompt := None |};
  {| statements := [stmt "DROP TYPE B" []]; confidence := 0.5%float; prompt := None |}].

(** The start-migration text and source map of a successful
    [gen_start_migration], and the worlds after each first step of [create]. *)
Definition start_text {S} `{Server S} (w : World S) : string :=
  match fst (gen_start_migration (cfg create_cmd) w) with Ok (t, _) => t | Err _ => EmptyString end.
Definition start_sm {S} `{Server S} (w : World S) : list SourceMapEntry :=
  match fst (gen_start_migration (cfg create_cmd) w) with Ok (_, sm) => sm | Err _ => [] end.
Definition after_start {S} `{Server S} (w : World S) : World S :=
  snd (execute (start_text w) (snd (gen_start_migration (cfg create_cmd) w))).
Definition after_tip {S} `{Server S} (w : World S) : World S :=
  snd (query_last (after_start w)).

(** The server is at [m2] while the disk history ends at [m1]. *)
Definition stale_srv : ScriptedServer :=
  {| ss_tip := Ok (Some "m2"); ss_describe := []; ss_rejects := [] |}.

(** The describe query fails, and so does [ABORT MIGRATION]. *)
Definition both_fail_srv : ScriptedServer :=
  {| ss_tip := Ok (Some "m1");
     ss_describe := [Err (EProtocol "describe failed")];
     ss_rejects := [("ABORT MIGRATION", EProtocol "abort failed")] |}.

(** One short confirmed statement. *)
Definition long_srv : ScriptedServer :=
  {| ss_tip := Ok (Some "m1");
     ss_describe := [Ok {| confirmed := ["CREATE TYPE Default::VeryLongTypeName"];
                           proposed := [] |}];
     ss_rejects := [] |}.

Fixpoint xs (n : nat) : string :=
  match n with O => EmptyString | S n' => String "x"%char (xs n') end.

(** A statement on one line longer than the writer's buffer: a property
    whose default is a 9000-character string. *)
Definition huge_statement : string :=
  "CREATE TYPE Default::Doc { CREATE PROPERTY body -> str { SET default := '"
  ++ xs (9 * 1000) ++ "'; }; }".

Definition huge_srv : ScriptedServer :=
  {| ss_tip := Ok (Some "m1");
     ss_describe := [Ok {| confirmed := [huge_statement]; proposed := [] |}];
     ss_rejects := [] |}.

(** A file whose [write] accepts at most [BUF_CAPACITY] bytes per call, as
    a write may accept only a prefix of its buffer. *)
Definition short_write_world : World ScriptedServer := {|
  w_srv := huge_srv; w_fs := fs_m1; w_log := [];
  w_io_fails := fun _ => false;
  w_accept := fun _ data => Nat.min BUF_CAPACITY (String.length data);
|}.

(** A schema file whose last statement lacks its semicolon. *)
Definition schema_file : path := join schema "default.esdl".
Definition fs_unterminated : FS := {|
  fs_files := {[ schema_file := "type A;" ++ nl ++ "type B" ++ nl ]};
  fs_dirs := {[ schema ]};
|}.

(** A confirmed migration written to a fresh directory. *)
Definition two_statements : CurrentMigration :=
  {| confirmed := ["CREATE TYPE A"; "CREATE TYPE B {" ++ nl ++ "  CREATE PROPERTY x: str" ++ nl ++ "}"];
     proposed := [] |}.

(** A filesystem whose [flush] fails. *)
Definition flush_fail_world : World ScriptedServer := {|
  w_srv := stale_srv; w_fs := fs_m1; w_log := [];
  w_io_fails := fun ev => match ev with EvFlush _ => true | _ => false end;
  w_accept := fun _ data => String.length data;
|}.

(** A server frozen on one description of the migration in progress. *)
Record FrozenServer := { frozen_state : CurrentMigration }.

#[export] Instance frozen_server : Server FrozenServer := {
  srv_execute _ s := (Ok tt, s);
  srv_describe s := (Ok (frozen_state s), s);
  srv_last_migration s := (Ok None, s);
}.

(** Nothing confirmed, and one proposal below [SAFE_CONFIDENCE]. *)
Definition low_confidence : CurrentMigration :=
  {| confirmed := [];
     proposed := [{| statements := [stmt "DROP TYPE B" []]; confidence := 0.5%float;
                     prompt := None |}] |}.

Definition frozen_world : World FrozenServer := {|
  w_srv := {| frozen_state := low_confidence |};
  w_fs := {| fs_files := ∅; fs_dirs := ∅ |}; w_log := [];
  w_io_fails := fun _ => false;
  w_accept := fun _ data => String.length data;
|}.

Definition interactive_cmd : CreateMigration :=
  {| cfg := {| schema_dir := schema |}; non_interactive := false |}.

(** A schema directory with one schema file, a hidden schema file, a text
    file, a directory named like a schema file, and one applied migration. *)
Definition fs_schema : FS := {|
  fs_files := {[ join schema "default.esdl" := "type A;" ++ nl;
                 join schema ".hidden.esdl" := "type H;" ++ nl;
                 join schema "notes.txt" := "notes";
                 join mig_dir "00001.edgeql" := "m1" ]};
  fs_dirs := {[ schema; mig_dir; join schema "dir.esdl" ]};
|}.

End Scenarios.

(* ===================================================================== *)
(** ** Proofs about the linearizer *)
(* ===================================================================== *)

Module LinearizeProofs.
Import DbMigration.

Section Props.
Context {M : Type} `{SortableMigration M}.

Lemma vec_pop_some {A} (q q' : list A) x :
  vec_pop q = Some (x, q') -> q = (q' ++ [x])%list.
Proof.
  unfold vec_pop. intros Hp. destruct (rev q) as [|y r] eqn:E; [discriminate|].
  injection Hp as <- <-. rewrite <- (rev_involutive q), E. reflexivity.
Qed.

Lemma vec_pop_none {A} (q : list A) : vec_pop q = None -> q = [].
Proof.
  unfold vec_pop. destruct (rev q) eqn:E; [|discriminate].
  intros _. rewrite <- (rev_involutive q), E. reflexivity.
Qed.

Lemma push_children_in visited (children queue : list M) x :
  In x (push_children visited children queue) -> In x queue \/ In x children.
Proof.
  unfold push_children. revert queue.
  induction children as [|c cs IH]; simpl; intros queue Hx; [tauto|].
  destruct (IH _ Hx) as [Hq|Hc]; [|tauto].
  destruct (bool_decide _); [tauto|].
  apply in_app_or in Hq as [Hq|[<-|[]]]; tauto.
Qed.

Lemma push_children_length visited (children queue : list M) :
  length (push_children visited children queue) <= length queue + length children.
Proof.
  unfold push_children. revert queue.
  induction children as [|c cs IH]; simpl; intros queue; [lia|].
  etransitivity; [apply IH|].
  destruct (bool_decide _); [lia|]. rewrite length_app. simpl. lia.
Qed.

Lemma index_insert_in {V} k (v : V) m k' v' :
  In (k', v') (index_insert k v m) -> (k', v') = (k, v) \/ In (k', v') m.
Proof.
  induction m as [|[k0 v0] m IH]; simpl; [intuition|].
  destruct (String.eqb k k0); simpl; intros [E|Hin]; auto.
  destruct (IH Hin); auto.
Qed.

Lemma index_insert_nodup {V} k (v : V) m :
  List.NoDup (map fst m) -> List.NoDup (map fst (index_insert k v m)).
Proof.
  induction m as [|[k0 v0] m IH]; simpl; intros Hnd.
  - constructor; [simpl; tauto|constructor].
  - inversion Hnd as [|? ? Hnin Hnd']; subst.
    destruct (String.eqb k k0) eqn:Ek; simpl.
    + apply String.eqb_eq in Ek as ->. constructor; assumption.
    + constructor; [|apply IH; assumption].
      intros Hin. apply in_map_iff in Hin as [[k1 v1] [Ek1 Hin]]. simpl in Ek1; subst k1.
      destruct (index_insert_in _ _ _ _ _ Hin) as [E|Hm].
      * injection E as -> _. rewrite String.eqb_refl in Ek. discriminate.
      * apply Hnin. apply in_map_iff. exists (k0, v1). auto.
Qed.

(** Size bookkeeping of [by_parent]. *)
Lemma bp_size_delete (bp : gmap string (list M)) k l :
  bp !! k = Some l -> bp_size bp = length l + bp_size (delete k bp).
Proof.
  intros Hk. unfold bp_size.
  rewrite (map_fold_delete_L _ _ k l bp); [reflexivity|intros; lia|assumption].
Qed.

Lemma bp_size_entry_push k (x : M) (bp : gmap string (list M)) : bp_size (entry_push k x bp) = S (bp_size bp).
Proof.
  unfold entry_push, bp_size. destruct (bp !! k) as [l|] eqn:Hk; simpl.
  - rewrite <- insert_delete_eq.
    rewrite map_fold_insert_L; [|intros; lia|apply lookup_delete_eq].
    rewrite (map_fold_delete_L _ _ k l bp); [|intros; lia|assumption].
    rewrite length_app. simpl. lia.
  - rewrite map_fold_insert_L; [|intros; lia|assumption]. simpl. lia.
Qed.

Lemma bp_size_build (migrations : list M) (bp : gmap string (list M)) :
  bp_size (fold_left (fun bp item =>
      fold_left (fun bp parent => entry_push parent item bp) (iter_parents item) bp)
    migrations bp)
  = sum_list_with (fun item => length (iter_parents item)) migrations + bp_size bp.
Proof.
  revert bp. induction migrations as [|item ms IH]; simpl; intros bp; [reflexivity|].
  rewrite IH.
  enough (Hp : forall ps bp, bp_size (fold_left (fun bp parent => entry_push parent item bp) ps bp)
                        = length ps + bp_size bp) by (rewrite Hp; lia).
  induction ps as [|p ps IHp]; simpl; intros bp'; [reflexivity|].
  rewrite IHp, bp_size_entry_push. lia.
Qed.

(** Every child list of [by_parent] holds input records that name the key
    as one of their parents. *)
Definition bp_inv (migrations : list M) (bp : gmap string (list M)) : Prop :=
  forall k l c, bp !! k = Some l -> In c l -> In c migrations /\ In k (iter_parents c).

Lemma bp_inv_entry_push (migrations : list M) (bp : gmap string (list M)) k x :
  bp_inv migrations bp -> In x migrations -> In k (iter_parents x) ->
  bp_inv migrations (entry_push k x bp).
Proof.
  unfold bp_inv, entry_push. intros Hinv Hx Hk k' l c Hl Hc.
  destruct (decide (k = k')) as [<-|Hne].
  - rewrite lookup_insert_eq in Hl. injection Hl as <-.
    apply in_app_or in Hc as [Hc|[<-|[]]]; [|auto].
    destruct (bp !! k) as [l0|] eqn:E; simpl in Hc; [|contradiction].
    eapply Hinv; eauto.
  - rewrite lookup_insert_ne in Hl by assumption. eapply Hinv; eauto.
Qed.

Lemma bp_inv_build (migrations : list M) :
  bp_inv migrations (build_by_parent migrations).
Proof.
  unfold build_by_parent.
  assert (Hgen : forall ms bp, (forall m, In m ms -> In m migrations) ->
            bp_inv migrations bp ->
            bp_inv migrations (fold_left (fun bp item =>
              fold_left (fun bp parent => entry_push parent item bp) (iter_parents item) bp)
              ms bp)).
  { induction ms as [|item ms IH]; simpl; intros bp Hsub Hbp; [assumption|].
    apply IH; [auto|].
    assert (Hp : forall ps bp, (forall p, In p ps -> In p (iter_parents item)) ->
              bp_inv migrations bp ->
              bp_inv migrations (fold_left (fun bp parent => entry_push parent item bp) ps bp)).
    { induction ps as [|p ps IHp]; simpl; intros bp' Hps Hbp'; [assumption|].
      apply IHp; [auto|]. apply bp_inv_entry_push; auto. }
    apply Hp; auto. }
  apply Hgen; [auto|]. intros k l c Hl. rewrite lookup_empty in Hl. discriminate.
Qed.

(** The loop invariant on the work stack and on the output map. *)
Definition queue_inv (migrations : list M) (queue : list M) : Prop :=
  forall x, In x queue -> In x migrations /\ reachable migrations x.

Definition out_inv (migrations : list M) (output : list (string * M)) : Prop :=
  List.NoDup (map fst output) /\
  forall k v, In (k, v) output -> k = name v /\ In v migrations /\ reachable migrations v.

Lemma lin_loop_spec (migrations : list M) fuel (bp : gmap string (list M)) visited queue output :
  bp_inv migrations bp -> queue_inv migrations queue -> out_inv migrations output ->
  bp_size bp + length queue < fuel ->
  exists out, lin_loop fuel bp visited queue output = Some out /\ out_inv migrations out.
Proof.
  revert bp visited queue output.
  induction fuel as [|fuel IH]; intros bp visited queue output Hbp Hq Hout Hfuel; [lia|].
  simpl. destruct (vec_pop queue) as [[item queue']|] eqn:Hpop.
  2: { exists output. split; [reflexivity|assumption]. }
  apply vec_pop_some in Hpop. subst queue.
  assert (Hitem : In item migrations /\ reachable migrations item)
    by (apply Hq; apply in_or_app; right; left; reflexivity).
  assert (Hq' : queue_inv migrations queue')
    by (intros x Hx; apply Hq; apply in_or_app; left; exact Hx).
  assert (Hout' : out_inv migrations (index_insert (name item) item output)).
  { destruct Hout as [Hnd Hkv]. split; [apply index_insert_nodup; assumption|].
    intros k v Hin. destruct (index_insert_in _ _ _ _ _ Hin) as [E|Hm].
    - injection E as -> ->. tauto.
    - apply Hkv; assumption. }
  rewrite length_app in Hfuel. simpl in Hfuel.
  destruct (bp !! name item) as [children|] eqn:Hch.
  - apply IH; [| |assumption|].
    + intros k l c Hl Hc. destruct (decide (name item = k)) as [<-|Hne].
      * rewrite lookup_delete_eq in Hl. discriminate.
      * rewrite lookup_delete_ne in Hl by assumption. eapply Hbp; eauto.
    + intros x Hx. apply push_children_in in Hx as [Hx|Hx]; [apply Hq'; assumption|].
      destruct (Hbp _ _ _ Hch Hx) as [Hxm Hpar]. split; [assumption|].
      eapply reach_child; [apply Hitem|assumption|assumption].
    + rewrite (bp_size_delete _ _ _ Hch) in Hfuel.
      pose proof (push_children_length ({[name item]} ∪ visited) children queue'). lia.
  - apply IH; [assumption|assumption|assumption|lia].
Qed.

Lemma roots_inv (migrations : list M) : queue_inv migrations (roots migrations).
Proof.
  intros x Hx. unfold roots in Hx. apply filter_In in Hx as [Hx Hr].
  split; [assumption|]. apply reach_root; assumption.
Qed.

Lemma linearize_spec (migrations : list M) :
  exists out, linearize_opt migrations = Some out /\ out_inv migrations out.
Proof.
  unfold linearize_opt. apply lin_loop_spec.
  - apply bp_inv_build.
  - apply roots_inv.
  - split; [constructor|intros k v []].
  - unfold lin_fuel, build_by_parent. rewrite bp_size_build.
    unfold bp_size. rewrite map_fold_empty. lia.
Qed.

(** C9: for every finite input, [linearize_db_migrations] terminates
    (its loop ends within [lin_fuel] iterations, so the fallback is never
    used) and has no failure path; its output has each name at most once,
    each entry is keyed by the name of an input record, and every emitted
    record is reachable from a root of the input through parent names
    that name input records: dangling parent names create no edge and
    unreachable records are left out. *)
Theorem linearize_terminates_total (migrations : list M) :
  linearize_opt migrations <> None /\
  List.NoDup (map fst (linearize_db_migrations migrations)) /\
  (forall k v, In (k, v) (linearize_db_migrations migrations) ->
     k = name v /\ In v migrations /\ reachable migrations v).
Proof.
  destruct (linearize_spec migrations) as [out [Hout [Hnd Hkv]]].
  unfold linearize_db_migrations. rewrite Hout. simpl.
  split; [discriminate|]. split; assumption.
Qed.

End Props.
End LinearizeProofs.

Module LinearizeDiamond.
Import DbMigration.

Example diamond_keys :
  map fst (linearize_db_migrations diamond) = ["A"; "C"; "D"; "B"].
Proof. vm_compute. reflexivity. Qed.

(** C1 (counterexample): on [A; B <- A; C <- A; D <- B, C] the output does
    not place D after B. *)
Lemma diamond_D_not_after_B :
  ~ (exists i j, map fst (linearize_db_migrations diamond) !! i = Some "B" /\
                 map fst (linearize_db_migrations diamond) !! j = Some "D" /\ i < j).
Proof.
  rewrite diamond_keys. intros (i & j & Hi & Hj & Hlt).
  destruct i as [|[|[|[|i]]]]; simpl in Hi; try discriminate.
  destruct j as [|[|[|[|j]]]]; simpl in Hj; try discriminate. lia.
Qed.

(** C1 (amended): on [A; B <- A; C <- A; D <- B, C] the output is exactly
    A, C, D, B: A first, then the stack pops C (the child of A pushed last)
    and its child D before B. *)
Theorem diamond_linearization :
  linearize_db_migrations diamond =
    [("A", mk "A" []); ("C", mk "C" ["A"]); ("D", mk "D" ["B"; "C"]); ("B", mk "B" ["A"])].
Proof. vm_compute. reflexivity. Qed.

End LinearizeDiamond.


(* ===================================================================== *)
(** ** The linearizer: order and completeness *)
(* ===================================================================== *)

Module LinearizeOrder.
Import DbMigration LinearizeProofs.

Section Order.
Context {M : Type} `{SortableMigration M}.

(** [q] comes strictly before [k] in the key sequence [ks]. *)
Definition before (ks : list string) (q k : string) : Prop :=
  exists i j, i < j /\ ks !! i = Some q /\ ks !! j = Some k.

Lemma index_insert_keys {V} k (v : V) m :
  map fst (index_insert k v m) =
    if existsb (String.eqb k) (map fst m) then map fst m else (map fst m ++ [k])%list.
Proof.
  induction m as [|[k0 v0] m IH]; simpl; [reflexivity|].
  destruct (String.eqb k k0) eqn:Ek; simpl.
  - apply String.eqb_eq in Ek as ->. reflexivity.
  - rewrite IH. destruct (existsb _ _); reflexivity.
Qed.

Lemma existsb_eqb_In k ks : existsb (String.eqb k) ks = true <-> In k ks.
Proof.
  rewrite existsb_exists. split.
  - intros (x & Hx & E). apply String.eqb_eq in E as ->. exact Hx.
  - intros Hk. exists k. split; [exact Hk|apply String.eqb_refl].
Qed.

Lemma index_insert_keys_in {V} k (v : V) m s :
  In s (map fst (index_insert k v m)) <-> s = k \/ In s (map fst m).
Proof.
  rewrite index_insert_keys. destruct (existsb _ _) eqn:E.
  - apply existsb_eqb_In in E. split; [tauto|]. intros [->|?]; assumption.
  - rewrite in_app_iff. simpl. intuition.
Qed.

Lemma index_insert_keys_prefix {V} k (v : V) m :
  exists sfx, map fst (index_insert k v m) = (map fst m ++ sfx)%list.
Proof.
  rewrite index_insert_keys. destruct (existsb _ _).
  - exists []. rewrite app_nil_r. reflexivity.
  - eexists. reflexivity.
Qed.

Lemma before_app ks sfx q k : before ks q k -> before (ks ++ sfx)%list q k.
Proof.
  intros (i & j & Hij & Hi & Hj). exists i, j. split; [assumption|].
  split; apply lookup_app_l_Some; assumption.
Qed.

Lemma before_snoc ks q k : In q ks -> before (ks ++ [k])%list q k.
Proof.
  intros Hq. apply list_elem_of_In, list_elem_of_lookup in Hq as [i Hi].
  exists i, (length ks). split; [apply lookup_lt_Some in Hi; exact Hi|].
  split; [apply lookup_app_l_Some; exact Hi|].
  rewrite lookup_app_r by lia. rewrite Nat.sub_diag. reflexivity.
Qed.

Lemma index_insert_in_nodup {V} k (v : V) m k' v' :
  List.NoDup (map fst m) -> In (k', v') (index_insert k v m) ->
  (k' = k /\ v' = v) \/ (k' <> k /\ In (k', v') m).
Proof.
  induction m as [|[k0 v0] m IH]; simpl; intros Hnd Hin.
  - destruct Hin as [E|[]]. injection E as -> ->. auto.
  - inversion Hnd as [|? ? Hnin Hnd']; subst.
    destruct (String.eqb k k0) eqn:Ek.
    + apply String.eqb_eq in Ek as <-. destruct Hin as [E|Hin].
      * injection E as -> ->. auto.
      * right. split; [|auto]. intros ->. apply Hnin.
        apply in_map_iff. exists (k, v'). auto.
    + destruct Hin as [E|Hin].
      * injection E as -> ->. right. split; [|auto].
        intros ->. rewrite String.eqb_refl in Ek. discriminate.
      * destruct (IH Hnd' Hin) as [?|[? ?]]; auto.
Qed.

Lemma push_children_in_fresh visited (children queue : list M) x :
  In x (push_children visited children queue) ->
  In x queue \/ (In x children /\ name x ∉ visited).
Proof.
  unfold push_children. revert queue.
  induction children as [|c cs IH]; simpl; intros queue Hx; [tauto|].
  destruct (IH _ Hx) as [Hq|[Hc Hv]]; [|tauto].
  destruct (bool_decide (name c ∈ visited)) eqn:Eb; [tauto|].
  apply in_app_or in Hq as [Hq|[<-|[]]]; [tauto|].
  apply bool_decide_eq_false in Eb. tauto.
Qed.

Lemma push_children_keep visited (children queue : list M) x :
  In x queue -> In x (push_children visited children queue).
Proof.
  unfold push_children. revert queue.
  induction children as [|c cs IH]; simpl; intros queue Hx; [assumption|].
  apply IH. destruct (bool_decide _); [assumption|]. apply in_or_app. auto.
Qed.

Lemma push_children_cover visited (children queue : list M) x :
  In x children -> name x ∈ visited \/ In x (push_children visited children queue).
Proof.
  unfold push_children. revert queue.
  induction children as [|c cs IH]; simpl; intros queue Hx; [contradiction|].
  destruct Hx as [->|Hx]; [|apply IH; assumption].
  destruct (bool_decide (name x ∈ visited)) eqn:Eb.
  - apply bool_decide_eq_true in Eb. auto.
  - right. apply (push_children_keep visited cs). apply in_or_app. simpl. auto.
Qed.

Lemma bp_inv_delete (migrations : list M) (bp : gmap string (list M)) k :
  bp_inv migrations bp -> bp_inv migrations (delete k bp).
Proof.
  intros Hbp k' l c Hl Hc. destruct (decide (k = k')) as [<-|Hne].
  - rewrite lookup_delete_eq in Hl. discriminate.
  - rewrite lookup_delete_ne in Hl by assumption. eapply Hbp; eauto.
Qed.

Definition visited_inv (visited : gset string) (output : list (string * M)) : Prop :=
  forall s, s ∈ visited <-> In s (map fst output).

(** Every element of the stack is a root, or has a parent name that is
    already a key, placed before its own name if that is a key too. *)
Definition queue_order (output : list (string * M)) (queue : list M) : Prop :=
  forall x, In x queue -> is_root x = true \/
    exists q, In q (iter_parents x) /\ In q (map fst output) /\
      (~ In (name x) (map fst output) \/ before (map fst output) q (name x)).

Definition out_order (output : list (string * M)) : Prop :=
  forall k v, In (k, v) output -> is_root v = true \/
    exists q, In q (iter_parents v) /\ before (map fst output) q k.

Lemma visited_inv_step visited output (item : M) :
  visited_inv visited output ->
  visited_inv ({[name item]} ∪ visited) (index_insert (name item) item output).
Proof.
  unfold visited_inv. intros Hv s.
  rewrite index_insert_keys_in, elem_of_union, elem_of_singleton, Hv. tauto.
Qed.

Lemma lin_loop_order (migrations : list M) fuel (bp : gmap string (list M)) visited queue output out :
  bp_inv migrations bp -> visited_inv visited output -> List.NoDup (map fst output) ->
  queue_order output queue -> out_order output ->
  lin_loop fuel bp visited queue output = Some out -> out_order out.
Proof.
  revert bp visited queue output.
  induction fuel as [|fuel IH]; intros bp visited queue output Hbp Hv Hnd Hq Ho Hrun;
    [discriminate|].
  simpl in Hrun. destruct (vec_pop queue) as [[item queue']|] eqn:Hpop.
  2: { injection Hrun as <-. exact Ho. }
  apply vec_pop_some in Hpop. subst queue.
  set (n := name item) in *.
  set (output' := index_insert n item output) in *.
  destruct (index_insert_keys_prefix n item output) as [sfx Hsfx]. fold output' in Hsfx.
  assert (Hkeys : map fst output' =
    if existsb (String.eqb n) (map fst output) then map fst output
    else (map fst output ++ [n])%list) by apply index_insert_keys.
  assert (Hnew : forall q, In q (map fst output) ->
            ~ In n (map fst output) -> before (map fst output') q n).
  { intros q Hq0 Hn. rewrite Hkeys.
    destruct (existsb _ _) eqn:E; [apply existsb_eqb_In in E; contradiction|].
    apply before_snoc. exact Hq0. }
  assert (Hv' : visited_inv ({[n]} ∪ visited) output') by apply visited_inv_step, Hv.
  assert (Hnd' : List.NoDup (map fst output')) by (apply index_insert_nodup, Hnd).
  assert (Ho' : out_order output').
  { intros k v Hin. destruct (index_insert_in_nodup _ _ _ _ _ Hnd Hin) as [[-> ->]|[Hne Hin']].
    - destruct (Hq item) as [Hr|(q & Hqp & Hqk & Hord)];
        [apply in_or_app; right; left; reflexivity|left; exact Hr|].
      right. exists q. split; [exact Hqp|].
      destruct Hord as [Hn|Hb]; [apply Hnew; assumption|].
      rewrite Hsfx. apply before_app. exact Hb.
    - destruct (Ho k v Hin') as [Hr|(q & Hqp & Hb)]; [left; exact Hr|].
      right. exists q. split; [exact Hqp|]. rewrite Hsfx. apply before_app. exact Hb. }
  assert (Hqold : forall x, In x queue' ->
            is_root x = true \/
            exists q, In q (iter_parents x) /\ In q (map fst output') /\
              (~ In (name x) (map fst output') \/ before (map fst output') q (name x))).
  { intros x Hx. destruct (Hq x) as [Hr|(q & Hqp & Hqk & Hord)];
      [apply in_or_app; left; exact Hx|left; exact Hr|].
    right. exists q. split; [exact Hqp|].
    split; [rewrite Hsfx; apply in_or_app; left; exact Hqk|].
    destruct Hord as [Hn|Hb].
    - destruct (decide (name x = n)) as [Hx'|Hx'].
      + right. rewrite Hx'. apply Hnew; [exact Hqk|]. rewrite <- Hx'. exact Hn.
      + left. unfold output'. rewrite index_insert_keys_in. tauto.
    - right. rewrite Hsfx. apply before_app. exact Hb. }
  destruct (bp !! n) as [children|] eqn:Hch.
  - refine (IH _ _ _ _ (bp_inv_delete _ _ _ Hbp) Hv' Hnd' _ Ho' Hrun).
    intros x Hx. apply push_children_in_fresh in Hx as [Hx|[Hx Hfresh]]; [apply Hqold; exact Hx|].
    right. exists n. destruct (Hbp _ _ _ Hch Hx) as [_ Hpar].
    split; [exact Hpar|]. split; [apply index_insert_keys_in; left; reflexivity|].
    left. intros Hin. apply Hfresh. apply Hv'. exact Hin.
  - exact (IH _ _ _ _ Hbp Hv' Hnd' Hqold Ho' Hrun).
Qed.

(** [c] is in the child list of [n]. *)
Definition covers (bp : gmap string (list M)) (c : M) (n : string) : Prop :=
  exists l, bp !! n = Some l /\ In c l.

Lemma covers_entry_push bp c n k x : covers bp c n -> covers (entry_push k x bp) c n.
Proof.
  intros (l & Hl & Hc). unfold covers, entry_push. destruct (decide (k = n)) as [<-|Hne].
  - rewrite lookup_insert_eq, Hl. eexists. split; [reflexivity|]. simpl.
    apply in_or_app. auto.
  - rewrite lookup_insert_ne by assumption. eauto.
Qed.

Lemma covers_entry_push_new bp k x : covers (entry_push k x bp) x k.
Proof.
  unfold covers, entry_push. rewrite lookup_insert_eq. eexists. split; [reflexivity|].
  apply in_or_app. simpl. auto.
Qed.

Lemma covers_build (migrations : list M) c n :
  In c migrations -> In n (iter_parents c) -> covers (build_by_parent migrations) c n.
Proof.
  unfold build_by_parent.
  assert (Hps : forall item ps bp c n,
            covers bp c n -> covers (fold_left (fun bp parent => entry_push parent item bp) ps bp) c n).
  { intros item ps. induction ps as [|p ps IH]; simpl; intros bp c' n' Hc; [exact Hc|].
    apply IH, covers_entry_push, Hc. }
  assert (Hps_new : forall item ps bp n,
            In n ps -> covers (fold_left (fun bp parent => entry_push parent item bp) ps bp) item n).
  { intros item ps. induction ps as [|p ps IH]; simpl; intros bp n' Hn; [contradiction|].
    destruct Hn as [->|Hn]; [|apply IH; exact Hn].
    apply Hps, covers_entry_push_new. }
  assert (Hms : forall ms bp c n,
            covers bp c n ->
            covers (fold_left (fun bp item =>
              fold_left (fun bp parent => entry_push parent item bp) (iter_parents item) bp) ms bp) c n).
  { induction ms as [|item ms IH]; simpl; intros bp c' n' Hc; [exact Hc|].
    apply IH, Hps, Hc. }
  generalize (∅ : gmap string (list M)). induction migrations as [|item ms IH]; simpl;
    intros bp Hc Hn; [contradiction|].
  destruct Hc as [->|Hc]; [apply Hms, Hps_new; exact Hn|apply IH; assumption].
Qed.

Definition bp_complete (migrations : list M) (bp : gmap string (list M))
    (output : list (string * M)) : Prop :=
  forall n c, In c migrations -> In n (iter_parents c) ->
    In n (map fst output) \/ covers bp c n.

Definition bp_done (bp : gmap string (list M)) (output : list (string * M)) : Prop :=
  forall n, In n (map fst output) -> bp !! n = None.

(** Every child of an emitted name is emitted or waiting on the stack. *)
Definition children_pending (migrations : list M) (output : list (string * M))
    (queue : list M) : Prop :=
  forall n c, In n (map fst output) -> In c migrations -> In n (iter_parents c) ->
    In (name c) (map fst output) \/ In c queue.

Definition roots_pending (migrations : list M) (output : list (string * M))
    (queue : list M) : Prop :=
  forall r, In r migrations -> is_root r = true -> In (name r) (map fst output) \/ In r queue.

Lemma lin_loop_complete (migrations : list M) fuel (bp : gmap string (list M)) visited queue output out :
  visited_inv visited output -> bp_complete migrations bp output -> bp_done bp output ->
  children_pending migrations output queue -> roots_pending migrations output queue ->
  lin_loop fuel bp visited queue output = Some out ->
  children_pending migrations out [] /\ roots_pending migrations out [].
Proof.
  revert bp visited queue output.
  induction fuel as [|fuel IH]; intros bp visited queue output Hv Hbc Hbd Hcp Hrp Hrun;
    [discriminate|].
  simpl in Hrun. destruct (vec_pop queue) as [[item queue']|] eqn:Hpop.
  2: { injection Hrun as <-. apply vec_pop_none in Hpop. subst queue. auto. }
  apply vec_pop_some in Hpop. subst queue.
  set (n := name item) in *.
  assert (Hk : forall s, In s (map fst (index_insert n item output)) <-> s = n \/ In s (map fst output))
    by (intros; apply index_insert_keys_in).
  assert (Hv' : visited_inv ({[n]} ∪ visited) (index_insert n item output))
    by apply visited_inv_step, Hv.
  (* the next stack contains the rest of the old one, and covers the
     children of [n] that are not yet emitted *)
  set (queue'' := match bp !! n with
                  | Some children => push_children ({[n]} ∪ visited) children queue'
                  | None => queue' end).
  set (bp'' := match bp !! n with Some _ => delete n bp | None => bp end).
  assert (Hrun' : lin_loop fuel bp'' ({[n]} ∪ visited) queue'' (index_insert n item output) = Some out)
    by (unfold bp'', queue''; destruct (bp !! n); exact Hrun).
  assert (Hkeep : forall x, In x queue' -> In x queue'').
  { intros x Hx. unfold queue''. destruct (bp !! n); [apply push_children_keep|]; exact Hx. }
  assert (Hold : forall x, In x (queue' ++ [item])%list ->
            In (name x) (map fst (index_insert n item output)) \/ In x queue'').
  { intros x Hx. apply in_app_or in Hx as [Hx|[<-|[]]]; [right; apply Hkeep; exact Hx|].
    left. apply Hk. left. reflexivity. }
  apply (IH bp'' ({[n]} ∪ visited) queue'' (index_insert n item output)); [exact Hv'| | | | |exact Hrun'].
  - intros n0 c Hc Hn0. destruct (Hbc n0 c Hc Hn0) as [Hin|(l & Hl & Hcl)].
    + left. apply Hk. right. exact Hin.
    + destruct (decide (n0 = n)) as [->|Hne]; [left; apply Hk; left; reflexivity|].
      right. exists l. split; [|exact Hcl].
      unfold bp''. destruct (bp !! n); [rewrite lookup_delete_ne by congruence|]; exact Hl.
  - intros n0 Hn0. apply Hk in Hn0 as [->|Hn0].
    + unfold bp''. destruct (bp !! n) eqn:E; [apply lookup_delete_eq|exact E].
    + pose proof (Hbd n0 Hn0) as E0. unfold bp''. destruct (bp !! n); [|exact E0].
      destruct (decide (n0 = n)) as [->|Hne]; [apply lookup_delete_eq|].
      rewrite lookup_delete_ne by congruence. exact E0.
  - intros n0 c Hn0 Hc Hpar. destruct (in_dec string_dec n0 (map fst output)) as [Hin|Hnin].
    + destruct (Hcp n0 c Hin Hc Hpar) as [Hnc|Hq].
      * left. apply Hk. right. exact Hnc.
      * apply Hold. exact Hq.
    + apply Hk in Hn0 as [->|Hn0]; [|contradiction].
      destruct (Hbc n c Hc Hpar) as [Hin|(l & Hl & Hcl)]; [contradiction|].
      unfold queue''. rewrite Hl.
      destruct (push_children_cover ({[n]} ∪ visited) l queue' c Hcl) as [Hvis|Hq].
      * left. apply Hv'. exact Hvis.
      * right. exact Hq.
  - intros r Hr Hroot. destruct (Hrp r Hr Hroot) as [Hin|Hq].
    + left. apply Hk. right. exact Hin.
    + apply Hold. exact Hq.
Qed.

End Order.

(** The output of [linearize_db_migrations] places, for every emitted
    record that is not a root, one of its parent names strictly before its
    own key. *)
Theorem linearize_parent_first {M} `{SortableMigration M} (migrations : list M) :
  forall k v, In (k, v) (linearize_db_migrations migrations) ->
    is_root v = true \/
    exists q, In q (iter_parents v) /\ before (map fst (linearize_db_migrations migrations)) q k.
Proof.
  destruct (linearize_spec migrations) as [out [Hout _]].
  unfold linearize_db_migrations. rewrite Hout. simpl.
  refine (lin_loop_order migrations _ _ _ _ _ out (bp_inv_build migrations) _ _ _ _ Hout).
  - intros s. rewrite elem_of_empty. simpl. tauto.
  - constructor.
  - intros x Hx. left. unfold roots in Hx. apply filter_In in Hx. tauto.
  - intros k v [].
Qed.

(** Every record reachable from a root of the input has its name among
    the keys of the output of [linearize_db_migrations]. *)
Theorem linearize_reachable_emitted {M} `{SortableMigration M} (migrations : list M) v :
  reachable migrations v -> In (name v) (map fst (linearize_db_migrations migrations)).
Proof.
  destruct (linearize_spec migrations) as [out [Hout _]].
  unfold linearize_db_migrations. rewrite Hout. simpl.
  destruct (lin_loop_complete migrations (lin_fuel migrations) (build_by_parent migrations)
              ∅ (roots migrations) [] out) as [Hcp Hrp]; [| | | | |exact Hout|].
  - intros s. rewrite elem_of_empty. simpl. tauto.
  - intros n c Hc Hn. right. apply covers_build; assumption.
  - intros n [].
  - intros n c [].
  - intros r Hr Hroot. right. unfold roots. apply filter_In. auto.
  - induction 1 as [m Hm Hroot|r m _ IHr Hm Hpar].
    + destruct (Hrp m Hm Hroot) as [?|[]]. assumption.
    + destruct (Hcp (name r) m IHr Hm Hpar) as [?|[]]. assumption.
Qed.

Lemma linearize_parent_first_witness :
  In ("D", mk "D" ["B"; "C"]) (linearize_db_migrations diamond) /\
  (is_root (mk "D" ["B"; "C"]) = true \/
   exists q, In q (iter_parents (mk "D" ["B"; "C"])) /\
     before (map fst (linearize_db_migrations diamond)) q "D").
Proof.
  assert (h : In ("D", mk "D" ["B"; "C"]) (linearize_db_migrations diamond)).
  { assert (E : linearize_db_migrations diamond =
      [("A", mk "A" []); ("C", mk "C" ["A"]); ("D", mk "D" ["B"; "C"]); ("B", mk "B" ["A"])])
      by (vm_compute; reflexivity).
    rewrite E. simpl. auto. }
  exact (conj h (linearize_parent_first diamond "D" (mk "D" ["B"; "C"]) h)).
Defined.

Lemma linearize_reachable_emitted_witness :
  reachable diamond (mk "D" ["B"; "C"]) /\
  In (name (mk "D" ["B"; "C"])) (map fst (linearize_db_migrations diamond)).
Proof.
  assert (h : reachable diamond (mk "D" ["B"; "C"])).
  { apply (reach_child diamond (mk "C" ["A"])).
    - apply (reach_child diamond (mk "A" [])).
      + apply reach_root; [unfold diamond; simpl; auto|reflexivity].
      + unfold diamond; simpl; auto.
      + simpl. auto.
    - unfold diamond; simpl; auto.
    - simpl. auto. }
  exact (conj h (linearize_reachable_emitted diamond _ h)).
Defined.

End LinearizeOrder.

(* ===================================================================== *)
(** ** Proofs about create.rs *)
(* ===================================================================== *)

Module CreateProofs.
Import Create.

Section MonadFacts.
Context {St : Type} `{Server St}.

Lemma bind_run {A B} (m : Mon St A) (k : A -> Mon St B) w :
  (m ≫= k) w = match m w with (Ok a, w') => k a w' | (Err e, w') => (Err e, w') end.
Proof. reflexivity. Qed.

Lemma ret_run {A} (a : A) (w : World St) : (mret a : Mon St A) w = (Ok a, w).
Proof. reflexivity. Qed.

(** A computation that leaves the filesystem alone and logs no write. *)
Definition reads_only {A} (m : Mon St A) : Prop :=
  forall w r w', m w = (r, w') ->
    w_fs w' = w_fs w /\
    exists evs, w_log w' = (w_log w ++ evs)%list /\ Forall (fun ev => is_fs_write ev = false) evs.

Lemma reads_only_ret {A} (a : A) : reads_only (mret a).
Proof.
  intros w r w' E. injection E as _ <-. split; [reflexivity|].
  exists []. rewrite app_nil_r. split; [reflexivity|constructor].
Qed.

Lemma reads_only_bind {A B} (m : Mon St A) (k : A -> Mon St B) :
  reads_only m -> (forall a, reads_only (k a)) -> reads_only (m ≫= k).
Proof.
  intros Hm Hk w r w' E. rewrite bind_run in E.
  destruct (m w) as [[a|e] w1] eqn:E1; destruct (Hm _ _ _ E1) as [Hfs1 [evs1 [Hl1 Hf1]]].
  - destruct (Hk a _ _ _ E) as [Hfs2 [evs2 [Hl2 Hf2]]].
    split; [congruence|]. exists (evs1 ++ evs2)%list.
    rewrite Hl2, Hl1, app_assoc. split; [reflexivity|]. apply Forall_app; auto.
  - injection E as _ <-. split; [assumption|]. exists evs1. auto.
Qed.

Lemma reads_only_context {A} ctx (m : Mon St A) : reads_only m -> reads_only (with_context ctx m).
Proof.
  intros Hm w r w' E. unfold with_context in E.
  destruct (m w) as [[a|e] w1] eqn:E1; injection E as _ <-; eapply Hm; eauto.
Qed.

Lemma reads_only_lift {A} (r0 : Result A) : reads_only (lift r0).
Proof.
  intros w r w' E. injection E as _ <-. split; [reflexivity|].
  exists []. rewrite app_nil_r. split; [reflexivity|constructor].
Qed.

Lemma reads_only_io {A} ev op p (k : FS -> option (A * FS)) :
  is_fs_write ev = false -> (forall fs a fs', k fs = Some (a, fs') -> fs' = fs) ->
  reads_only (io_call ev op p k).
Proof.
  intros Hev Hk w r w' E. unfold io_call in E. cbn [log_ev w_fs w_io_fails] in E.
  destruct (w_io_fails _ ev).
  - injection E as _ <-. split; [reflexivity|]. exists [ev]. split; [reflexivity|].
    constructor; [assumption|constructor].
  - destruct (k (w_fs w)) as [[a fs]|] eqn:Ek; injection E as _ <-.
    + rewrite (Hk _ _ _ Ek). split; [reflexivity|]. exists [ev].
      split; [reflexivity|]. constructor; [assumption|constructor].
    + split; [reflexivity|]. exists [ev]. split; [reflexivity|].
      constructor; [assumption|constructor].
Qed.

Lemma execute_run q (w : World St) r w' :
  execute q w = (r, w') ->
  w_fs w' = w_fs w /\ w_log w' = (w_log w ++ [EvExecute q])%list /\
  r = fst (srv_execute q (w_srv w)).
Proof.
  unfold execute. cbn [log_ev w_srv].
  destruct (srv_execute q (w_srv w)) as [r0 s] eqn:E.
  intros E'. injection E' as <- <-. simpl. auto.
Qed.

Lemma query_last_run (w : World St) r w' :
  query_last w = (r, w') ->
  w_fs w' = w_fs w /\ w_log w' = (w_log w ++ [EvQuery LAST_QUERY])%list.
Proof.
  unfold query_last. cbn [log_ev w_srv].
  destruct (srv_last_migration (w_srv w)) as [r0 s].
  intros E'. injection E' as <- <-. simpl. auto.
Qed.

Lemma reads_only_execute q : reads_only (execute q).
Proof.
  intros w r w' E. destruct (execute_run _ _ _ _ E) as [Hfs [Hl _]].
  split; [assumption|]. exists [EvExecute q]. split; [assumption|].
  constructor; [reflexivity|constructor].
Qed.


Lemma reads_only_read_dir d : reads_only (read_dir d).
Proof.
  apply reads_only_io; [reflexivity|].
  intros fs a fs'. destruct (bool_decide _); intros E; [injection E as _ <-|]; congruence.
Qed.

Lemma reads_only_file_type p : reads_only (file_type_is_file p).
Proof. apply reads_only_io; [reflexivity|]. intros fs a fs' E. injection E as _ <-. reflexivity. Qed.

Lemma reads_only_read_to_string p : reads_only (read_to_string p).
Proof.
  apply reads_only_io; [reflexivity|].
  intros fs a fs'. destruct (fs_files fs !! p); intros E; [injection E as _ <-|]; congruence.
Qed.

Section Schema.
Context `{Preparser}.

Lemma reads_only_read_schema_file p : reads_only (read_schema_file p).
Proof.
  apply reads_only_context, reads_only_bind; [apply reads_only_read_to_string|].
  intros data. apply reads_only_lift.
Qed.

Lemma reads_only_add_schema_entry bld item : reads_only (add_schema_entry bld item).
Proof.
  unfold add_schema_entry. apply reads_only_bind.
  - destruct (_ || _); [apply reads_only_ret|].
    apply reads_only_bind; [apply reads_only_file_type|intros; apply reads_only_ret].
  - intros [|]; [apply reads_only_ret|].
    apply reads_only_bind; [apply reads_only_read_schema_file|intros; apply reads_only_ret].
Qed.

Lemma reads_only_add_schema_entries bld items : reads_only (add_schema_entries bld items).
Proof.
  revert bld. induction items as [|item items IH]; intros bld; simpl.
  - apply reads_only_ret.
  - apply reads_only_bind; [apply reads_only_add_schema_entry|intros; apply IH].
Qed.

Lemma reads_only_gen_start_migration ctx : reads_only (gen_start_migration ctx).
Proof.
  apply reads_only_context, reads_only_bind; [apply reads_only_read_dir|].
  intros items. apply reads_only_bind; [apply reads_only_add_schema_entries|].
  intros bld. apply reads_only_ret.
Qed.

(** The builder only grows. *)
Lemma add_schema_entries_extends bld items (w : World St) bld' w' :
  add_schema_entries bld items w = (Ok bld', w') -> exists tl, bld' = (bld ++ tl)%list.
Proof.
  revert bld w. induction items as [|item items IH]; intros bld w E; simpl in E.
  - injection E as <- _. exists []. rewrite app_nil_r. reflexivity.
  - rewrite bind_run in E.
    destruct (add_schema_entry bld item w) as [[b1|e] w1] eqn:E1; [|discriminate].
    destruct (IH _ _ E) as [tl ->].
    assert (Hb1 : exists t, b1 = (bld ++ t)%list).
    { unfold add_schema_entry in E1. rewrite bind_run in E1.
      destruct (String.prefix "." (file_name item) || negb (ends_with ".esdl" (file_name item))).
      - rewrite ret_run in E1. injection E1 as <- _. exists []. rewrite app_nil_r. reflexivity.
      - rewrite bind_run in E1. destruct (file_type_is_file item w) as [[b|e] w2]; [|discriminate].
        rewrite ret_run in E1. destruct (negb b).
        + injection E1 as <- _. exists []. rewrite app_nil_r. reflexivity.
        + rewrite bind_run in E1. destruct (read_schema_file item w2) as [[c|e] w3]; [|discriminate].
          injection E1 as <- _. exists [(File item, c)]. reflexivity. }
    destruct Hb1 as [t ->]. exists (t ++ tl)%list. rewrite app_assoc. reflexivity.
Qed.

(** The aggregated text starts with the [START MIGRATION TO {] line. *)
Lemma gen_start_migration_text ctx (w : World St) text sm w' :
  gen_start_migration ctx w = (Ok (text, sm), w') ->
  exists rest, text = ("START MIGRATION TO {" ++ nl ++ rest).
Proof.
  unfold gen_start_migration, with_context. rewrite bind_run.
  destruct (read_dir (schema_dir ctx) w) as [[items|e] w1]; [|discriminate].
  rewrite bind_run.
  destruct (add_schema_entries _ items w1) as [[bld|e] w2] eqn:E2; [|discriminate].
  destruct (add_schema_entries_extends _ _ _ _ _ E2) as [tl ->].
  rewrite ret_run. intros E. injection E as Ht _.
  unfold done, add_lines, builder_new in Ht. simpl in Ht.
  destruct (done_from _ _) as [out sm'] in Ht. injection Ht as <- _.
  exists out. reflexivity.
Qed.

End Schema.


Section CreateFlow.
Context `{Preparser} `{MigrationHasher} `{LocalHistory}.

(** The steps of [create] up to the history check, as hypotheses shared by
    the theorems below. *)
Lemma create_run_mismatch fuel c (w : World St) migrations text sm w1 w2 db w3 :
  read_all (cfg c) (w_fs w) = Ok migrations ->
  gen_start_migration (cfg c) w = (Ok (text, sm), w1) ->
  execute text w1 = (Ok tt, w2) ->
  query_last w2 = (Ok db, w3) ->
  db <> last_key migrations ->
  create fuel c w = (Err (EMsg VALIDATION_MSG), w3).
Proof.
  intros Hread Hgen Hexec Hlast Hne. unfold create. rewrite bind_run. cbv beta zeta.
  rewrite Hread. cbv beta iota. rewrite bind_run, Hgen. cbv beta iota.
  rewrite bind_run, Hexec. cbv beta iota. rewrite bind_run, Hlast. cbv beta iota.
  rewrite bool_decide_eq_false_2 by assumption. reflexivity.
Qed.

(** C5: when the server's tip differs from the last id of the on-disk
    history, [create] fails with the validation error that says to run
    [edgedb migrate], and it has issued no filesystem write (the
    filesystem is unchanged and no write operation is in the log). *)
Theorem create_stale_history_no_write fuel c (w : World St) migrations text sm w1 w2 db w3 :
  read_all (cfg c) (w_fs w) = Ok migrations ->
  gen_start_migration (cfg c) w = (Ok (text, sm), w1) ->
  execute text w1 = (Ok tt, w2) ->
  query_last w2 = (Ok db, w3) ->
  db <> last_key migrations ->
  create fuel c w = (Err (EMsg VALIDATION_MSG), w3) /\
  w_fs w3 = w_fs w /\
  exists evs, w_log w3 = (w_log w ++ evs)%list /\ Forall (fun ev => is_fs_write ev = false) evs.
Proof.
  intros Hread Hgen Hexec Hlast Hne.
  split; [eapply create_run_mismatch; eassumption|].
  destruct (reads_only_gen_start_migration _ _ _ _ Hgen) as [Hfs1 [evs1 [Hl1 Hf1]]].
  destruct (execute_run _ _ _ _ Hexec) as [Hfs2 [Hl2 _]].
  destruct (query_last_run _ _ _ Hlast) as [Hfs3 Hl3].
  split; [congruence|].
  exists (evs1 ++ [EvExecute text; EvQuery LAST_QUERY])%list.
  rewrite Hl3, Hl2, Hl1, <- !app_assoc. split; [reflexivity|].
  apply Forall_app. split; [assumption|]. repeat constructor.
Qed.

(** C6 (amended): [create] sends the start-migration command (the
    aggregated schema, whose first line is [START MIGRATION TO {]) before it
    asks the server for its tip; when the tips differ it then fails, and the
    tip query is the last request of the run. *)
Theorem create_start_before_history_check fuel c (w : World St) migrations text sm w1 w2 db w3 :
  read_all (cfg c) (w_fs w) = Ok migrations ->
  gen_start_migration (cfg c) w = (Ok (text, sm), w1) ->
  execute text w1 = (Ok tt, w2) ->
  query_last w2 = (Ok db, w3) ->
  db <> last_key migrations ->
  create fuel c w = (Err (EMsg VALIDATION_MSG), w3) /\
  (exists rest, text = ("START MIGRATION TO {" ++ nl ++ rest)) /\
  w_log w3 = (w_log w1 ++ [EvExecute text; EvQuery LAST_QUERY])%list.
Proof.
  intros Hread Hgen Hexec Hlast Hne.
  split; [eapply create_run_mismatch; eassumption|].
  split; [eapply gen_start_migration_text; eassumption|].
  destruct (execute_run _ _ _ _ Hexec) as [_ [Hl2 _]].
  destruct (query_last_run _ _ _ Hlast) as [_ Hl3].
  rewrite Hl3, Hl2, <- app_assoc. reflexivity.
Qed.

(** C2 (amended): in non-interactive mode, once the history check passed,
    [create] sends [ABORT MIGRATION] after [run_non_interactive] whatever its
    outcome, and returns [exec.and(abort)]: the loop's error when the loop
    failed (an error of the abort is then dropped), the abort's result
    otherwise. *)
Theorem create_abort_after_loop fuel c (w : World St) migrations text sm w1 w2 w3
    exec w4 abort w5 :
  non_interactive c = true ->
  read_all (cfg c) (w_fs w) = Ok migrations ->
  gen_start_migration (cfg c) w = (Ok (text, sm), w1) ->
  execute text w1 = (Ok tt, w2) ->
  query_last w2 = (Ok (last_key migrations), w3) ->
  run_non_interactive fuel (cfg c) (length migrations + 1) w3 = (exec, w4) ->
  execute "ABORT MIGRATION" w4 = (abort, w5) ->
  create fuel c w = (match exec with Ok _ => abort | Err e => Err e end, w5) /\
  w_log w5 = (w_log w4 ++ [EvExecute "ABORT MIGRATION"])%list.
Proof.
  intros Hni Hread Hgen Hexec Hlast Hrun Habort.
  split; [|apply (execute_run _ _ _ _ Habort)].
  unfold create. rewrite bind_run. cbv beta zeta.
  rewrite Hread. cbv beta iota. rewrite bind_run, Hgen. cbv beta iota.
  rewrite bind_run, Hexec. cbv beta iota. rewrite bind_run, Hlast. cbv beta iota.
  rewrite bool_decide_eq_true_2 by reflexivity. rewrite Hni. cbv beta iota.
  cbn [negb]. rewrite bind_run. unfold attempt at 1. rewrite Hrun. cbv beta iota.
  rewrite bind_run. unfold attempt. rewrite Habort. cbv beta iota.
  destruct exec as [[]|?]; destruct abort as [[]|?]; reflexivity.
Qed.

(** *** The describe loop *)

Section Describe.

(** The statements a round executes, in order: those of the proposals at
    or above [SAFE_CONFIDENCE]. *)
Definition safe_statements (ps : list Proposal) : list StatementProposal :=
  flat_map (fun p => if PrimFloat.leb SAFE_CONFIDENCE (confidence p) then statements p else []) ps.

Definition needs_input (st : StatementProposal) : bool :=
  negb (bool_decide (required_user_input st = [])).

(** The statements before the first one that needs user input, and that one. *)
Fixpoint split_at_input (sts : list StatementProposal)
  : list StatementProposal * option StatementProposal :=
  match sts with
  | [] => ([], None)
  | st :: rest =>
      if needs_input st then ([], Some st)
      else let '(pre, b) := split_at_input rest in (st :: pre, b)
  end.

Definition blocked_result (b : option StatementProposal) : Result unit :=
  match b with
  | None => Ok tt
  | Some st => Err (EMsg ("cannot apply `" ++ text st ++ "` without user input"))
  end.

Definition blocked_events (b : option StatementProposal) : list event :=
  match b with
  | None => []
  | Some st => map (fun i => EvEprint ("Input required: " ++ rui_prompt i)) (required_user_input st)
  end.

Lemma split_at_input_app l1 l2 :
  split_at_input (l1 ++ l2) =
    match split_at_input l1 with
    | (pre, Some st) => (pre, Some st)
    | (pre, None) => let '(pre2, b2) := split_at_input l2 in ((pre ++ pre2)%list, b2)
    end.
Proof.
  induction l1 as [|st l1 IH]; simpl.
  - destruct (split_at_input l2); reflexivity.
  - destruct (needs_input st); [reflexivity|]. rewrite IH.
    destruct (split_at_input l1) as [pre [st'|]]; [reflexivity|].
    destruct (split_at_input l2); reflexivity.
Qed.

Lemma eprint_inputs_run inputs (w : World St) :
  eprint_inputs inputs w =
    (Ok tt, {| w_srv := w_srv w; w_fs := w_fs w;
               w_log := (w_log w ++ map (fun i => EvEprint ("Input required: " ++ rui_prompt i)) inputs)%list;
               w_io_fails := w_io_fails w; w_accept := w_accept w |}).
Proof.
  revert w. induction inputs as [|i rest IH]; intros w; simpl.
  - rewrite app_nil_r. destruct w; reflexivity.
  - rewrite bind_run. unfold eprintln. rewrite IH. simpl. rewrite <- app_assoc. reflexivity.
Qed.

Hypothesis execute_accepts : forall q s, fst (srv_execute q s) = Ok tt.

Lemma apply_statements_spec sts (w : World St) :
  exists w', apply_statements sts w = (blocked_result (snd (split_at_input sts)), w') /\
    w_log w' = (w_log w ++ map (fun st => EvExecute (text st)) (fst (split_at_input sts))
                ++ blocked_events (snd (split_at_input sts)))%list /\
    w_fs w' = w_fs w.
Proof.
  revert w. induction sts as [|st rest IH]; intros w; simpl.
  - exists w. rewrite !app_nil_r. auto.
  - unfold needs_input. destruct (bool_decide (required_user_input st = [])); simpl.
    + rewrite bind_run. destruct (execute (text st) w) as [r w1] eqn:E.
      destruct (execute_run _ _ _ _ E) as [Hfs1 [Hl1 Hr]].
      rewrite execute_accepts in Hr. subst r.
      destruct (IH w1) as [w' [Hrun [Hl Hfs]]].
      unfold needs_input in Hrun, Hl.
      destruct (split_at_input rest) as [pre b]. simpl in *.
      exists w'. split; [exact Hrun|]. split; [|congruence].
      rewrite Hl, Hl1, <- app_assoc. reflexivity.
    + rewrite bind_run, eprint_inputs_run. simpl.
      eexists. split; [reflexivity|]. simpl. split; reflexivity.
Qed.

(** C3: when the server accepts the statements it is sent, a round of the
    describe loop executes, in order, the statements of the proposals at or
    above [SAFE_CONFIDENCE] (none of the others) up to the first one that
    declares required user input; at that statement it prints the prompt
    of every required input and fails with an error naming the statement's
    text, executing nothing more. *)
Theorem apply_proposals_spec ps (w : World St) :
  exists w', apply_proposals ps w = (blocked_result (snd (split_at_input (safe_statements ps))), w') /\
    w_log w' = (w_log w
                ++ map (fun st => EvExecute (text st)) (fst (split_at_input (safe_statements ps)))
                ++ blocked_events (snd (split_at_input (safe_statements ps))))%list.
Proof.
  revert w. induction ps as [|p ps IH]; intros w; simpl.
  - exists w. rewrite !app_nil_r. auto.
  - rewrite bind_run, split_at_input_app.
    destruct (PrimFloat.leb SAFE_CONFIDENCE (confidence p)).
    + destruct (apply_statements_spec (statements p) w) as [w1 [Hrun [Hl1 _]]].
      rewrite Hrun. destruct (split_at_input (statements p)) as [pre [st|]]; simpl in *.
      * exists w1. split; [reflexivity|]. rewrite Hl1. reflexivity.
      * destruct (IH w1) as [w' [Hrun' Hl']]. unfold safe_statements in *.
        destruct (split_at_input (flat_map _ ps)) as [pre2 b2]. simpl in *.
        exists w'. split; [exact Hrun'|]. rewrite Hl', Hl1, app_nil_r, map_app, <- !app_assoc.
        reflexivity.
    + rewrite ret_run. simpl. destruct (IH w) as [w' Hw]. exists w'.
      destruct (split_at_input (safe_statements ps)). exact Hw.
Qed.

End Describe.

(** *** Reading one schema file *)

Lemma length_substring n m s :
  String.length (substring n m s) = Nat.min m (String.length s - n).
Proof.
  revert n m. induction s as [|c s IH]; intros n m; simpl.
  - destruct n, m; reflexivity.
  - destruct n as [|n].
    + destruct m as [|m]; simpl; [reflexivity|]. rewrite IH. lia.
    + rewrite IH. reflexivity.
Qed.

Lemma length_str_drop n s : String.length (str_drop n s) = String.length s - n.
Proof. unfold str_drop. rewrite length_substring. lia. Qed.

Section SchemaFile.
Context `{Preparser}.

(** The offsets reached by consuming complete statements from the start. *)
Inductive consumed (data : string) : nat -> Prop :=
| consumed_start : consumed data 0
| consumed_next off n :
    consumed data off -> full_statement (str_drop off data) = Some n ->
    consumed data (off + n).

Lemma read_schema_loop_spec data :
  (forall s n, full_statement s = Some n -> 0 < n <= String.length s) ->
  forall fuel off, consumed data off -> String.length data - off < fuel ->
  exists off', consumed data off' /\ full_statement (str_drop off' data) = None /\
    read_schema_loop fuel data off =
      (if is_empty (str_drop off' data) then Ok data
       else Err (EMsg "final statement does not end with a semicolon")).
Proof.
  intros Hprog fuel. induction fuel as [|fuel IH]; intros off Hoff Hfuel; [lia|].
  simpl. destruct (full_statement (str_drop off data)) as [shift|] eqn:Hfs.
  - pose proof (Hprog _ _ Hfs) as Hsh. rewrite length_str_drop in Hsh.
    apply IH; [econstructor; eassumption|lia].
  - exists off. split; [assumption|]. split; [assumption|].
    destruct (is_empty (str_drop off data)); reflexivity.
Qed.

(** C7: given a preparser whose complete statements are non-empty and lie
    within the text, reading a schema file consumes its complete
    statements and then checks the single remainder: the file is accepted
    and returned unchanged when the remainder is empty for the preparser
    (whitespace only), and otherwise the read fails with an error whose
    context names the file. *)
Theorem read_schema_file_spec (p : path) (w : World St) data :
  (forall s n, full_statement s = Some n -> 0 < n <= String.length s) ->
  w_io_fails w (EvReadFile p) = false ->
  fs_files (w_fs w) !! p = Some data ->
  exists off, consumed data off /\ full_statement (str_drop off data) = None /\
    fst (read_schema_file p w) =
      (if is_empty (str_drop off data) then Ok data
       else Err (EContext ("could not read schema file " ++ display p)
                   (EMsg "final statement does not end with a semicolon"))).
Proof.
  intros Hprog Hio Hdata.
  destruct (read_schema_loop_spec data Hprog (S (String.length data)) 0 (consumed_start _))
    as [off [Hc [Hn Hloop]]]; [lia|].
  exists off. split; [assumption|]. split; [assumption|].
  unfold read_schema_file, with_context. rewrite bind_run.
  unfold read_to_string, io_call. cbn [log_ev w_io_fails w_fs]. rewrite Hio, Hdata.
  cbv beta iota. unfold lift. rewrite Hloop.
  destruct (is_empty (str_drop off data)); reflexivity.
Qed.

End SchemaFile.

(** *** Writing the migration file *)

Section WriteFile.

Lemma bind_ok {A B} (m : Mon St A) (k : A -> Mon St B) w b w'' :
  (m ≫= k) w = (Ok b, w'') -> exists a w', m w = (Ok a, w') /\ k a w' = (Ok b, w'').
Proof.
  rewrite bind_run. destruct (m w) as [[a|e] w1]; intros E; [eauto|discriminate].
Qed.

Lemma io_call_log {A} ev op p (k : FS -> option (A * FS)) (w : World St) :
  w_log (snd (io_call ev op p k w)) = (w_log w ++ [ev])%list.
Proof.
  unfold io_call. cbn [log_ev w_fs w_io_fails].
  destruct (w_io_fails _ ev); [reflexivity|].
  destruct (k _) as [[a fs]|]; reflexivity.
Qed.

Lemma io_call_ok {A} ev op p (k : FS -> option (A * FS)) (w : World St) a w' :
  io_call ev op p k w = (Ok a, w') -> w_log w' = (w_log w ++ [ev])%list.
Proof. intros E. rewrite <- (io_call_log ev op p k w), E. reflexivity. Qed.

Lemma write_ok p d (w : World St) n w' :
  write p d w = (Ok n, w') -> w_log w' = (w_log w ++ [EvWrite p d])%list.
Proof. unfold write. apply io_call_ok. Qed.

(** The lines written for the body: every line of every statement,
    indented by two spaces. *)
Definition body_lines (stmts : list string) : list string :=
  flat_map (fun s => map (fun l => "  " ++ l ++ nl) (lines s)) stmts.

(** The chunks written to the temporary file, in order. *)
Definition migration_chunks (id parent : string) (stmts : list string) : list string :=
  app ["CREATE MIGRATION " ++ id ++ nl; "    ONTO " ++ parent ++ nl; "{" ++ nl]
    (app (body_lines stmts) ["};" ++ nl]).

Lemma write_lines_ok p ls (w : World St) w' :
  write_lines p ls w = (Ok tt, w') ->
  w_log w' = app (w_log w) (map (EvWrite p) (map (fun l => "  " ++ l ++ nl) ls)).
Proof.
  revert w. induction ls as [|l ls IH]; intros w E; simpl in *.
  - injection E as <-. rewrite app_nil_r. reflexivity.
  - destruct (bind_ok _ _ _ _ _ E) as (n & w1 & E1 & E2).
    rewrite (IH _ E2), (write_ok _ _ _ _ _ E1), <- app_assoc. reflexivity.
Qed.

Lemma write_statements_ok p stmts (w : World St) w' :
  write_statements p stmts w = (Ok tt, w') ->
  w_log w' = (w_log w ++ map (EvWrite p) (body_lines stmts))%list.
Proof.
  revert w. induction stmts as [|st stmts IH]; intros w E; simpl in *.
  - injection E as <-. rewrite app_nil_r. reflexivity.
  - destruct (bind_ok _ _ _ _ _ E) as ([] & w1 & E1 & E2).
    rewrite (IH _ E2), (write_lines_ok _ _ _ _ E1), <- app_assoc, map_app.
    reflexivity.
Qed.

Lemma tmp_path_eq fp :
  join (path_parent fp) (".~" ++ file_name fp ++ ".tmp") = tmp_path fp.
Proof. reflexivity. Qed.

(** C10: when the writer succeeds, the hasher was fed the confirmed
    statements each suffixed with a semicolon, in confirmed order, the id
    written in the header is made from that hasher, and the lines of those
    same suffixed statements, indented by two spaces, are the body written
    to the temporary file (between the header lines and the closing line);
    the file is then flushed and renamed onto the final path. *)
Theorem write_migration_hashes_suffixed descr parent (fp : path) (w w' : World St) :
  _write_migration descr parent fp w = (Ok tt, w') ->
  let stmts := map (fun s => s ++ ";") (confirmed descr) in
  exists h, hash_statements (hasher_new parent) stmts = Ok h /\
    w_log w' =
      (w_log w
       ++ (if bool_decide (is_Some (fs_files (w_fs w) !! fp) \/ fp ∈ fs_dirs (w_fs w))
           then [] else [EvCreateDirAll (path_parent fp)])
       ++ [EvRemoveFile (tmp_path fp); EvCreateFile (tmp_path fp)]
       ++ map (EvWrite (tmp_path fp)) (migration_chunks (hasher_make_id h) parent stmts)
       ++ [EvFlush (tmp_path fp); EvRename (tmp_path fp) fp])%list.
Proof.
  intros E stmts. unfold _write_migration, with_context in E.
  match type of E with
  | match ?M w with _ => _ end = _ => destruct (M w) as [[[]|e] w1] eqn:Ein
  end; [|discriminate].
  injection E as <-. cbv zeta in Ein.
  destruct (bind_ok _ _ _ _ _ Ein) as (h & wa & Eh & Ein1). clear Ein.
  unfold lift in Eh. injection Eh as Eh <-.
  exists h. split; [exact Eh|]. fold stmts in Ein1. cbv beta in Ein1.
  rewrite tmp_path_eq in Ein1.
  destruct (bind_ok _ _ _ _ _ Ein1) as (b & wb & Eb & Ein2). clear Ein1.
  unfold path_exists in Eb. injection Eb as Eb <-. subst b.
  destruct (bind_ok _ _ _ _ _ Ein2) as ([] & wc & Ec & Ein3). clear Ein2.
  assert (Hc : w_log wc =
    (w_log w ++ (if bool_decide (is_Some (fs_files (w_fs w) !! fp) \/ fp ∈ fs_dirs (w_fs w))
                 then [] else [EvCreateDirAll (path_parent fp)]))%list).
  { destruct (bool_decide _); cbn [negb] in Ec.
    - injection Ec as <-. rewrite app_nil_r. reflexivity.
    - unfold create_dir_all in Ec. exact (io_call_ok _ _ _ _ _ _ _ Ec). }
  clear Ec.
  destruct (bind_ok _ _ _ _ _ Ein3) as (r & wd & Ed & Ein4). clear Ein3.
  assert (Hd : w_log wd = (w_log wc ++ [EvRemoveFile (tmp_path fp)])%list).
  { unfold attempt in Ed. unfold remove_file in Ed.
    pose proof (io_call_log (EvRemoveFile (tmp_path fp)) "remove_file" (tmp_path fp)
      (fun fs => match fs_files fs !! tmp_path fp with
                 | Some _ => Some (tt, {| fs_files := delete (tmp_path fp) (fs_files fs);
                                          fs_dirs := fs_dirs fs |})
                 | None => None end) wc) as Hl.
    destruct (io_call _ _ _ _ wc) as [r0 w0]. injection Ed as _ <-. exact Hl. }
  clear Ed.
  destruct (bind_ok _ _ _ _ _ Ein4) as ([] & we & Ee & Ein5). clear Ein4.
  unfold create_file in Ee. apply io_call_ok in Ee.
  destruct (bind_ok _ _ _ _ _ Ein5) as (n1 & wf & Ef & Ein6). clear Ein5.
  apply write_ok in Ef.
  destruct (bind_ok _ _ _ _ _ Ein6) as (n2 & wg & Eg & Ein7). clear Ein6.
  apply write_ok in Eg.
  destruct (bind_ok _ _ _ _ _ Ein7) as (n3 & wh & Eh3 & Ein8). clear Ein7.
  apply write_ok in Eh3.
  destruct (bind_ok _ _ _ _ _ Ein8) as ([] & wi & Ei & Ein9). clear Ein8.
  apply write_statements_ok in Ei.
  destruct (bind_ok _ _ _ _ _ Ein9) as (n4 & wj & Ej & Ein10). clear Ein9.
  apply write_ok in Ej.
  destruct (bind_ok _ _ _ _ _ Ein10) as ([] & wk & Ek & Ein11). clear Ein10.
  unfold flush in Ek. apply io_call_ok in Ek.
  destruct (bind_ok _ _ _ _ _ Ein11) as ([] & wl & El & Ein12). clear Ein11.
  unfold rename in El. apply io_call_ok in El.
  injection Ein12 as <-.
  rewrite El, Ek, Ej, Ei, Eh3, Eg, Ef, Ee, Hd, Hc.
  unfold migration_chunks. rewrite !map_app. simpl map.
  rewrite <- !app_assoc. simpl. reflexivity.
Qed.

End WriteFile.

(** *** A failed write leaves the final path alone *)

Section WriteFailure.
Variable fp : path.

(** [m] leaves the contents at [fp] unchanged. *)
Definition keeps {A} (m : Mon St A) : Prop :=
  forall w r w', m w = (r, w') -> fs_files (w_fs w') !! fp = fs_files (w_fs w) !! fp.

(** [m] leaves the contents at [fp] unchanged when it fails. *)
Definition err_keeps {A} (m : Mon St A) : Prop :=
  forall w e w', m w = (Err e, w') -> fs_files (w_fs w') !! fp = fs_files (w_fs w) !! fp.

Lemma keeps_err {A} (m : Mon St A) : keeps m -> err_keeps m.
Proof. intros Hm w e w'. apply Hm. Qed.

Lemma keeps_ret {A} (a : A) : keeps (mret a).
Proof. intros w r w' E. injection E as _ <-. reflexivity. Qed.

Lemma keeps_lift {A} (r0 : Result A) : keeps (lift r0).
Proof. intros w r w' E. injection E as _ <-. reflexivity. Qed.

Lemma keeps_path_exists p : keeps (path_exists p).
Proof. intros w r w' E. injection E as _ <-. reflexivity. Qed.

Lemma keeps_bind {A B} (m : Mon St A) (k : A -> Mon St B) :
  keeps m -> (forall a, keeps (k a)) -> keeps (m ≫= k).
Proof.
  intros Hm Hk w r w' E. rewrite bind_run in E.
  destruct (m w) as [[a|e] w1] eqn:E1.
  - rewrite (Hk a _ _ _ E). exact (Hm _ _ _ E1).
  - injection E as _ <-. exact (Hm _ _ _ E1).
Qed.

Lemma err_keeps_bind {A B} (m : Mon St A) (k : A -> Mon St B) :
  keeps m -> (forall a, err_keeps (k a)) -> err_keeps (m ≫= k).
Proof.
  intros Hm Hk w e w' E. rewrite bind_run in E.
  destruct (m w) as [[a|e1] w1] eqn:E1.
  - rewrite (Hk a _ _ _ E). exact (Hm _ _ _ E1).
  - injection E as _ <-. exact (Hm _ _ _ E1).
Qed.

Lemma err_keeps_then_ret {A B} (m : Mon St A) (b : B) :
  err_keeps m -> err_keeps (m ;; mret b).
Proof.
  intros Hm w e w' E. rewrite bind_run in E.
  destruct (m w) as [[a|e1] w1] eqn:E1; [discriminate|].
  injection E as _ <-. exact (Hm _ _ _ E1).
Qed.

Lemma keeps_attempt {A} (m : Mon St A) : keeps m -> keeps (attempt m).
Proof.
  intros Hm w r w' E. unfold attempt in E.
  destruct (m w) as [r0 w0] eqn:E0. injection E as _ <-. exact (Hm _ _ _ E0).
Qed.

Lemma keeps_io {A} ev op p (k : FS -> option (A * FS)) :
  (forall fs a fs', k fs = Some (a, fs') -> fs_files fs' !! fp = fs_files fs !! fp) ->
  keeps (io_call ev op p k).
Proof.
  intros Hk w r w' E. unfold io_call in E. cbn [log_ev w_fs w_io_fails] in E.
  destruct (w_io_fails _ ev); [injection E as _ <-; reflexivity|].
  destruct (k (w_fs w)) as [[a fs]|] eqn:Ek; injection E as _ <-; [|reflexivity].
  exact (Hk _ _ _ Ek).
Qed.

Lemma keeps_create_dir_all d : keeps (create_dir_all d).
Proof. apply keeps_io. intros fs a fs' E. injection E as _ <-. reflexivity. Qed.

Lemma keeps_remove_file p : p <> fp -> keeps (remove_file p).
Proof.
  intros Hne. apply keeps_io. intros fs a fs'.
  destruct (fs_files fs !! p); intros E; [|discriminate].
  injection E as _ <-. simpl. apply lookup_delete_ne. exact Hne.
Qed.

Lemma keeps_create_file p : p <> fp -> keeps (create_file p).
Proof.
  intros Hne. apply keeps_io. intros fs a fs'.
  destruct (bool_decide _); intros E; [|discriminate].
  injection E as _ <-. simpl. apply lookup_insert_ne. exact Hne.
Qed.

Lemma keeps_write p d : p <> fp -> keeps (write p d).
Proof.
  intros Hne w r w' E. unfold write in E. refine (keeps_io _ _ _ _ _ w r w' E).
  intros fs a fs' Ek. injection Ek as _ <-. simpl. apply lookup_insert_ne. exact Hne.
Qed.

Lemma keeps_flush p : keeps (flush p).
Proof. apply keeps_io. intros fs a fs' E. injection E as _ <-. reflexivity. Qed.

Lemma err_keeps_rename src : err_keeps (rename src fp).
Proof.
  intros w e w' E. unfold rename, io_call in E. cbn [log_ev w_fs w_io_fails] in E.
  destruct (w_io_fails _ _); [injection E as _ <-; reflexivity|].
  destruct (fs_files (w_fs w) !! src); [discriminate|injection E as _ <-; reflexivity].
Qed.

Lemma keeps_write_lines p ls : p <> fp -> keeps (write_lines p ls).
Proof.
  intros Hne. induction ls as [|l ls IH]; simpl.
  - apply keeps_ret.
  - apply keeps_bind; [apply keeps_write; exact Hne|intros; exact IH].
Qed.

Lemma keeps_write_statements p stmts : p <> fp -> keeps (write_statements p stmts).
Proof.
  intros Hne. induction stmts as [|st stmts IH]; simpl.
  - apply keeps_ret.
  - apply keeps_bind; [apply keeps_write_lines; exact Hne|intros; exact IH].
Qed.

End WriteFailure.

Lemma string_length_append s1 s2 :
  String.length (s1 ++ s2) = String.length s1 + String.length s2.
Proof. induction s1 as [|c s1 IH]; simpl; [reflexivity|]. rewrite IH. reflexivity. Qed.

Lemma tmp_path_ne fp : tmp_path fp <> fp.
Proof.
  unfold tmp_path, join, path_parent, file_name.
  induction fp as [|x l _] using rev_ind; [discriminate|].
  rewrite removelast_last, List.last_last. intros E.
  apply app_inj_tail in E as [_ E].
  apply (f_equal String.length) in E. rewrite !string_length_append in E. simpl in E. lia.
Qed.

(** When the writer fails, at whatever step, the contents at the final
    path are those it had before: every step before the rename works on
    the temporary file or on directories, and a failed rename changes
    nothing. *)
Theorem write_migration_failure_keeps_final descr parent (fp : path) (w w' : World St) e :
  _write_migration descr parent fp w = (Err e, w') ->
  fs_files (w_fs w') !! fp = fs_files (w_fs w) !! fp.
Proof.
  intros E. unfold _write_migration, with_context in E.
  match type of E with
  | match ?M w with _ => _ end = _ => destruct (M w) as [[[]|e1] w1] eqn:Ein
  end; [discriminate|].
  injection E as _ <-. cbv zeta in Ein. rewrite tmp_path_eq in Ein.
  match type of Ein with
  | ?M w = _ => enough (Hk : err_keeps fp M) by exact (Hk _ _ _ Ein)
  end.
  pose proof (tmp_path_ne fp) as Hne.
  apply err_keeps_bind; [apply keeps_lift|intros h].
  apply err_keeps_bind; [apply keeps_path_exists|intros b].
  apply err_keeps_bind; [destruct (negb b); [apply keeps_create_dir_all|apply keeps_ret]|intros _].
  apply err_keeps_bind; [apply keeps_attempt, keeps_remove_file; exact Hne|intros _].
  apply err_keeps_bind; [apply keeps_create_file; exact Hne|intros _].
  apply err_keeps_bind; [apply keeps_write; exact Hne|intros _].
  apply err_keeps_bind; [apply keeps_write; exact Hne|intros _].
  apply err_keeps_bind; [apply keeps_write; exact Hne|intros _].
  apply err_keeps_bind; [apply keeps_write_statements; exact Hne|intros _].
  apply err_keeps_bind; [apply keeps_write; exact Hne|intros _].
  apply err_keeps_bind; [apply keeps_flush|intros _].
  apply err_keeps_then_ret, err_keeps_rename.
Qed.


End CreateFlow.

End MonadFacts.
End CreateProofs.

(* ===================================================================== *)
(** ** The migration file names: [format!("{:05}", index)] *)
(* ===================================================================== *)

Module FormatProofs.
Import Create.

(** Reading a string of decimal digits back, most significant first. *)
Fixpoint digits_value (s : string) (acc : nat) : option nat :=
  match s with
  | EmptyString => Some acc
  | String c s' =>
      let d := nat_of_ascii c in
      if Nat.leb 48 d && Nat.ltb d 58 then digits_value s' (acc * 10 + (d - 48)) else None
  end.

Definition decimal_value (s : string) : option nat :=
  match s with EmptyString => None | _ => digits_value s 0 end.

Lemma str_app_cons x (a b : string) : (String x a ++ b)%string = String x (a ++ b).
Proof. reflexivity. Qed.

Lemma str_app_assoc (a b c : string) : ((a ++ b) ++ c)%string = (a ++ (b ++ c))%string.
Proof.
  induction a as [|x a IH]; [reflexivity|]. rewrite !str_app_cons, IH. reflexivity.
Qed.

Lemma str_app_empty (a : string) : (a ++ EmptyString)%string = a.
Proof. induction a as [|x a IH]; [reflexivity|]. rewrite str_app_cons, IH. reflexivity. Qed.

Lemma str_length_app (a b : string) : String.length (a ++ b) = String.length a + String.length b.
Proof.
  induction a as [|x a IH]; [reflexivity|]. rewrite str_app_cons. simpl. rewrite IH. reflexivity.
Qed.

Lemma dec_aux_acc fuel n acc : dec_aux fuel n acc = (dec_aux fuel n EmptyString ++ acc)%string.
Proof.
  revert n acc. induction fuel as [|fuel IH]; intros n acc; simpl; [reflexivity|].
  destruct (Nat.ltb n 10); [reflexivity|].
  rewrite (IH _ (String _ acc)), (IH _ (String _ EmptyString)), str_app_assoc. reflexivity.
Qed.

Lemma digits_value_app s1 s2 acc :
  digits_value (s1 ++ s2) acc =
  match digits_value s1 acc with Some a => digits_value s2 a | None => None end.
Proof.
  revert acc. induction s1 as [|c s1 IH]; intros acc; [reflexivity|].
  rewrite str_app_cons. simpl. destruct (_ && _); [apply IH|reflexivity].
Qed.

Lemma digit_value n acc :
  n < 10 -> digits_value (String (ascii_of_nat (48 + n)) EmptyString) acc = Some (acc * 10 + n).
Proof.
  intros Hn. cbn [digits_value]. rewrite nat_ascii_embedding by lia.
  replace (Nat.leb 48 (48 + n) && Nat.ltb (48 + n) 58) with true
    by (symmetry; apply andb_true_intro; split; [apply Nat.leb_le|apply Nat.ltb_lt]; lia).
  f_equal. lia.
Qed.

Lemma dec_aux_value fuel n acc :
  n < fuel ->
  digits_value (dec_aux fuel n EmptyString) acc =
  Some (acc * 10 ^ String.length (dec_aux fuel n EmptyString) + n).
Proof.
  revert n acc. induction fuel as [|fuel IH]; intros n acc Hn; [lia|].
  cbn [dec_aux]. destruct (Nat.ltb n 10) eqn:Hlt.
  - apply Nat.ltb_lt in Hlt. rewrite digit_value by (apply Nat.mod_upper_bound; lia). cbn [String.length]. rewrite Nat.pow_1_r, Nat.mod_small by exact Hlt.  reflexivity.
  - apply Nat.ltb_ge in Hlt.
    assert (Hd : n / 10 < fuel) by (apply Nat.lt_le_trans with n; [apply Nat.div_lt|]; lia).
    rewrite dec_aux_acc, digits_value_app, IH by exact Hd.
    rewrite digit_value by (apply Nat.mod_upper_bound; lia).
    rewrite str_length_app. f_equal. cbn [String.length].
    rewrite Nat.add_1_r, Nat.pow_succ_r'.
    pose proof (Nat.div_mod n 10 ltac:(lia)). nia.
Qed.

Lemma dec_aux_length fuel n j :
  n < fuel -> 1 <= j -> n < 10 ^ j -> 1 <= String.length (dec_aux fuel n EmptyString) <= j.
Proof.
  revert n j. induction fuel as [|fuel IH]; intros n j Hn Hj Hpow; [lia|].
  cbn [dec_aux]. destruct (Nat.ltb n 10) eqn:Hlt; [simpl; lia|].
  apply Nat.ltb_ge in Hlt.
  assert (Hj2 : 2 <= j).
  { destruct j as [|[|j]]; [lia| |lia]. simpl in Hpow. lia. }
  assert (Hd : n / 10 < fuel) by (apply Nat.lt_le_trans with n; [apply Nat.div_lt|]; lia).
  assert (Hp : n / 10 < 10 ^ (j - 1)).
  { apply Nat.Div0.div_lt_upper_bound.
    replace (10 * 10 ^ (j - 1)) with (10 ^ j); [lia|].
    rewrite <- Nat.pow_succ_r'. f_equal. lia. }
  destruct (IH (n / 10) (j - 1) Hd ltac:(lia) Hp) as [H1 H2].
  rewrite dec_aux_acc, str_length_app. cbn [String.length]. lia.
Qed.

Lemma zeros_value k acc : digits_value (zeros k) acc = Some (acc * 10 ^ k).
Proof.
  revert acc. induction k as [|k IH]; intros acc; simpl; [f_equal; lia|].
  rewrite IH. f_equal. lia.
Qed.

Lemma zeros_length k : String.length (zeros k) = k.
Proof. induction k; simpl; congruence. Qed.

(** The name [write_migration] gives the file of migration [index] reads
    back as [index]: the zero padding adds no value, so distinct indexes
    never share a file. *)
Theorem format05_roundtrip n : decimal_value (format05 n) = Some n.
Proof.
  assert (Hv : digits_value (format05 n) 0 = Some n).
  { unfold format05, dec. rewrite digits_value_app, zeros_value, dec_aux_value by lia.
    f_equal; lia. }
  assert (Hl : 1 <= String.length (format05 n)).
  { unfold format05, dec. rewrite str_length_app.
    pose proof (Nat.pow_gt_lin_r 10 (S n) ltac:(lia)).
    destruct (dec_aux_length (S n) n (S n) ltac:(lia) ltac:(lia) ltac:(lia)). lia. }
  unfold decimal_value. destruct (format05 n) eqn:E; [simpl in Hl; lia|exact Hv].
Qed.

(** For an index below [10 ^ 5] the name has exactly five digits, so that
    the files sort by name in the order of their indexes. *)
Theorem format05_length n : n < 10 ^ 5 -> String.length (format05 n) = 5.
Proof.
  intros Hn. unfold format05, dec.
  destruct (dec_aux_length (S n) n 5 ltac:(lia) ltac:(lia) Hn).
  rewrite str_length_app, zeros_length. lia.
Qed.

End FormatProofs.

(* ===================================================================== *)
(** ** More of create.rs: the describe loop, local failures, interactive mode *)
(* ===================================================================== *)

Module CreateMore.
Import Create CreateProofs.

(** Requests to the server, as opposed to local file and terminal I/O. *)
Definition is_server_request (ev : event) : bool :=
  match ev with EvExecute _ | EvQuery _ => true | _ => false end.

Section More.
Context {St : Type} `{Server St} `{Preparser} `{MigrationHasher} `{LocalHistory}.

(** *** The describe loop *)

Lemma apply_proposals_unsafe ps (w : World St) :
  Forall (fun p => PrimFloat.leb SAFE_CONFIDENCE (confidence p) = false) ps ->
  apply_proposals ps w = (Ok tt, w).
Proof.
  revert w. induction ps as [|p ps IH]; intros w Hps; simpl; [reflexivity|].
  inversion Hps as [|? ? Hp Hps']; subst.
  rewrite bind_run, Hp, ret_run. apply IH. exact Hps'.
Qed.

(** When the server keeps describing the same migration, with proposals
    that are all below [SAFE_CONFIDENCE], the describe loop executes
    nothing and asks again: whatever bound is put on its rounds, it uses
    them all up, each round being one more DESCRIBE query. The source puts
    no bound on the loop, so it does not terminate. *)
Theorem describe_loop_spins fuel (w : World St) d :
  srv_describe (w_srv w) = (Ok d, w_srv w) ->
  proposed d <> [] ->
  Forall (fun p => PrimFloat.leb SAFE_CONFIDENCE (confidence p) = false) (proposed d) ->
  fst (describe_loop fuel w) = Err EFuel /\
  w_log (snd (describe_loop fuel w)) = (w_log w ++ repeat (EvQuery DESCRIBE_QUERY) fuel)%list.
Proof.
  intros Hd Hne Hlow. revert w Hd.
  induction fuel as [|fuel IH]; intros w Hd; simpl.
  - rewrite app_nil_r. auto.
  - rewrite bind_run. unfold query_describe. cbn [log_ev w_srv]. rewrite Hd. cbv beta iota.
    rewrite bool_decide_eq_false_2 by exact Hne.
    rewrite bind_run, apply_proposals_unsafe by exact Hlow. cbv beta iota.
    destruct (IH (set_srv (w_srv w) (log_ev (EvQuery DESCRIBE_QUERY) w))) as [Hr Hl];
      [exact Hd|].
    split; [exact Hr|]. rewrite Hl. simpl. rewrite <- app_assoc. reflexivity.
Qed.

(** *** Steps that do not talk to the server *)

Definition server_silent {A} (m : Mon St A) : Prop :=
  forall w r w', m w = (r, w') ->
    w_srv w' = w_srv w /\
    exists evs, w_log w' = (w_log w ++ evs)%list /\
      Forall (fun ev => is_server_request ev = false) evs.

Lemma silent_ret {A} (a : A) : server_silent (mret a).
Proof.
  intros w r w' E. injection E as _ <-. split; [reflexivity|].
  exists []. rewrite app_nil_r. split; [reflexivity|constructor].
Qed.

Lemma silent_lift {A} (r0 : Result A) : server_silent (lift r0).
Proof.
  intros w r w' E. injection E as _ <-. split; [reflexivity|].
  exists []. rewrite app_nil_r. split; [reflexivity|constructor].
Qed.

Lemma silent_bind {A B} (m : Mon St A) (k : A -> Mon St B) :
  server_silent m -> (forall a, server_silent (k a)) -> server_silent (m ≫= k).
Proof.
  intros Hm Hk w r w' E. rewrite bind_run in E.
  destruct (m w) as [[a|e] w1] eqn:E1; destruct (Hm _ _ _ E1) as [Hs1 [evs1 [Hl1 Hf1]]].
  - destruct (Hk a _ _ _ E) as [Hs2 [evs2 [Hl2 Hf2]]].
    split; [congruence|]. exists (evs1 ++ evs2)%list.
    rewrite Hl2, Hl1, app_assoc. split; [reflexivity|]. apply Forall_app; auto.
  - injection E as _ <-. split; [assumption|]. exists evs1. auto.
Qed.

Lemma silent_context {A} ctx (m : Mon St A) : server_silent m -> server_silent (with_context ctx m).
Proof.
  intros Hm w r w' E. unfold with_context in E.
  destruct (m w) as [[a|e] w1] eqn:E1; injection E as _ <-; eapply Hm; eauto.
Qed.

Lemma silent_io {A} ev op p (k : FS -> option (A * FS)) :
  is_server_request ev = false -> server_silent (io_call ev op p k).
Proof.
  intros Hev w r w' E. unfold io_call in E. cbn [log_ev w_fs w_io_fails] in E.
  assert (Hw : forall r0 fs, (r0, set_fs fs (log_ev ev w)) = (r, w') \/ (r0, log_ev ev w) = (r, w') ->
            w_srv w' = w_srv w /\ exists evs, w_log w' = (w_log w ++ evs)%list /\
              Forall (fun ev => is_server_request ev = false) evs).
  { intros r0 fs E'.
    assert (Hl : w_log w' = (w_log w ++ [ev])%list /\ w_srv w' = w_srv w)
      by (destruct E' as [E'|E']; injection E' as _ <-; split; reflexivity).
    destruct Hl as [Hl Hs]. split; [exact Hs|]. exists [ev]. split; [exact Hl|].
    apply List.Forall_cons; [exact Hev|apply List.Forall_nil]. }
  destruct (w_io_fails _ ev); [apply (Hw (Err (EIo op p)) (w_fs w)); right; exact E|].
  destruct (k (w_fs w)) as [[a fs]|]; [apply (Hw (Ok a) fs); left; exact E|].
  apply (Hw (Err (EIo op p)) (w_fs w)). right. exact E.
Qed.

Lemma silent_read_schema_file p : server_silent (read_schema_file p).
Proof.
  apply silent_context, silent_bind; [apply silent_io; reflexivity|].
  intros data. apply silent_lift.
Qed.

Lemma silent_add_schema_entries bld items : server_silent (add_schema_entries bld items).
Proof.
  revert bld. induction items as [|item items IH]; intros bld; simpl; [apply silent_ret|].
  apply silent_bind; [|intros; apply IH].
  unfold add_schema_entry. apply silent_bind.
  - destruct (_ || _); [apply silent_ret|].
    apply silent_bind; [apply silent_io; reflexivity|intros; apply silent_ret].
  - intros [|]; [apply silent_ret|].
    apply silent_bind; [apply silent_read_schema_file|intros; apply silent_ret].
Qed.

Lemma silent_gen_start_migration ctx : server_silent (gen_start_migration ctx).
Proof.
  apply silent_context, silent_bind; [apply silent_io; reflexivity|].
  intros items. apply silent_bind; [apply silent_add_schema_entries|].
  intros bld. apply silent_ret.
Qed.

(** *** [create] before the migration is started *)

(** When the schema cannot be read, [create] fails with that error, and up
    to that point it has neither sent anything to the server nor changed
    the server's state. *)
Theorem create_schema_failure_server_untouched fuel c (w : World St) migrations e w1 :
  read_all (cfg c) (w_fs w) = Ok migrations ->
  gen_start_migration (cfg c) w = (Err e, w1) ->
  create fuel c w = (Err e, w1) /\ w_srv w1 = w_srv w /\
  exists evs, w_log w1 = (w_log w ++ evs)%list /\
    Forall (fun ev => is_server_request ev = false) evs.
Proof.
  intros Hread Hgen. split.
  - unfold create. rewrite bind_run. cbv beta zeta.
    rewrite Hread. cbv beta iota. rewrite bind_run, Hgen. reflexivity.
  - exact (silent_gen_start_migration _ _ _ _ Hgen).
Qed.

(** In interactive mode, once the history check passes, [create] fails with
    [INTERACTIVE_MSG] after the server has received the START MIGRATION
    text and the tip query and nothing else: no ABORT MIGRATION is sent, so
    the migration block it started is left open. *)
Theorem create_interactive_leaves_started fuel c (w : World St) migrations text sm w1 w2 w3 :
  non_interactive c = false ->
  read_all (cfg c) (w_fs w) = Ok migrations ->
  gen_start_migration (cfg c) w = (Ok (text, sm), w1) ->
  execute text w1 = (Ok tt, w2) ->
  query_last w2 = (Ok (last_key migrations), w3) ->
  create fuel c w = (Err (EMsg INTERACTIVE_MSG), w3) /\
  exists evs, w_log w3 = (w_log w ++ evs ++ [EvExecute text; EvQuery LAST_QUERY])%list /\
    Forall (fun ev => is_server_request ev = false) evs.
Proof.
  intros Hni Hread Hgen Hexec Hlast. split.
  - unfold create. rewrite bind_run. cbv beta zeta.
    rewrite Hread. cbv beta iota. rewrite bind_run, Hgen. cbv beta iota.
    rewrite bind_run, Hexec. cbv beta iota. rewrite bind_run, Hlast. cbv beta iota.
    rewrite bool_decide_eq_true_2 by reflexivity. rewrite Hni. reflexivity.
  - destruct (silent_gen_start_migration _ _ _ _ Hgen) as [_ [evs [Hl Hf]]].
    destruct (execute_run _ _ _ _ Hexec) as [_ [Hl2 _]].
    destruct (query_last_run _ _ _ Hlast) as [_ Hl3].
    exists evs. split; [|exact Hf].
    rewrite Hl3, Hl2, Hl. rewrite <- !app_assoc. reflexivity.
Qed.

(** *** The files [gen_start_migration] reads *)

(** The paths of the files read, in order. *)
Definition read_paths (evs : list event) : list path :=
  flat_map (fun ev => match ev with EvReadFile p => [p] | _ => [] end) evs.

(** The entries the loop of [gen_start_migration] does not skip: the name
    does not start with a dot, ends in [.esdl], and the entry is a file. *)
Definition schema_selected (fs : FS) (item : path) : bool :=
  negb (String.prefix "." (file_name item)) && ends_with ".esdl" (file_name item)
  && bool_decide (is_Some (fs_files fs !! item)).

Lemma read_paths_app evs1 evs2 :
  read_paths (evs1 ++ evs2) = (read_paths evs1 ++ read_paths evs2)%list.
Proof. unfold read_paths. apply flat_map_app. Qed.

Lemma context_ok {A} ctx (m : Mon St A) w a w' :
  with_context ctx m w = (Ok a, w') -> m w = (Ok a, w').
Proof. unfold with_context. destruct (m w) as [[b|e] w1]; intros E; [exact E|discriminate]. Qed.

Lemma io_call_ok_inv {A} ev op p (k : FS -> option (A * FS)) (w : World St) a w' :
  io_call ev op p k w = (Ok a, w') ->
  exists fs', k (w_fs w) = Some (a, fs') /\ w' = set_fs fs' (log_ev ev w).
Proof.
  unfold io_call. cbn [log_ev w_fs w_io_fails].
  destruct (w_io_fails w ev); [discriminate|].
  destruct (k (w_fs w)) as [[b fs]|]; [|discriminate].
  intros E. injection E as -> <-. eauto.
Qed.

Lemma read_schema_file_reads p (w : World St) s w' :
  read_schema_file p w = (Ok s, w') ->
  w_fs w' = w_fs w /\ w_log w' = (w_log w ++ [EvReadFile p])%list /\
  is_Some (fs_files (w_fs w) !! p).
Proof.
  unfold read_schema_file. intros E. apply context_ok, bind_ok in E as (data & w1 & E1 & E2).
  unfold lift in E2. injection E2 as _ <-.
  unfold read_to_string in E1. apply io_call_ok_inv in E1 as (fs' & Hk & ->).
  destruct (fs_files (w_fs w) !! p) eqn:Hf; [|discriminate].
  injection Hk as _ <-. eauto.
Qed.

Lemma add_schema_entry_reads bld item (w : World St) b w' :
  add_schema_entry bld item w = (Ok b, w') ->
  w_fs w' = w_fs w /\ exists evs, w_log w' = (w_log w ++ evs)%list /\
    read_paths evs = if schema_selected (w_fs w) item then [item] else [].
Proof.
  unfold add_schema_entry, schema_selected. intros E.
  apply bind_ok in E as (skip & w1 & E1 & E2).
  destruct (String.prefix "." (file_name item)) eqn:Hdot; cbn [negb orb andb] in *.
  { injection E1 as <- <-. injection E2 as _ <-. split; [reflexivity|].
    exists []. rewrite app_nil_r. auto. }
  destruct (ends_with ".esdl" (file_name item)) eqn:Hext; cbn [negb orb andb] in *.
  2:{ injection E1 as <- <-. injection E2 as _ <-. split; [reflexivity|].
      exists []. rewrite app_nil_r. auto. }
  apply bind_ok in E1 as (is_file & w2 & E3 & E4). injection E4 as <- <-.
  unfold file_type_is_file in E3. apply io_call_ok_inv in E3 as (fs' & Hk & ->).
  injection Hk as <- <-.
  destruct (bool_decide (is_Some (fs_files (w_fs w) !! item))); cbn [negb] in E2.
  - apply bind_ok in E2 as (chunk & w3 & E5 & E6). injection E6 as _ <-.
    destruct (read_schema_file_reads _ _ _ _ E5) as (Hfs & Hl & _).
    split; [exact Hfs|]. exists [EvFileType item; EvReadFile item].
    rewrite Hl. simpl. rewrite <- app_assoc. auto.
  - injection E2 as _ <-. split; [reflexivity|]. exists [EvFileType item]. auto.
Qed.

Lemma add_schema_entries_reads items bld (w : World St) b w' :
  add_schema_entries bld items w = (Ok b, w') ->
  w_fs w' = w_fs w /\ exists evs, w_log w' = (w_log w ++ evs)%list /\
    read_paths evs = List.filter (schema_selected (w_fs w)) items.
Proof.
  revert bld w. induction items as [|item items IH]; intros bld w E; simpl in E.
  - injection E as _ <-. split; [reflexivity|]. exists []. rewrite app_nil_r. auto.
  - apply bind_ok in E as (b1 & w1 & E1 & E2).
    destruct (add_schema_entry_reads _ _ _ _ _ E1) as (Hfs1 & evs1 & Hl1 & Hr1).
    destruct (IH _ _ E2) as (Hfs2 & evs2 & Hl2 & Hr2).
    split; [congruence|]. exists (evs1 ++ evs2)%list.
    rewrite Hl2, Hl1, app_assoc. split; [reflexivity|].
    rewrite read_paths_app, Hr1, Hr2, Hfs1. simpl.
    destruct (schema_selected (w_fs w) item); reflexivity.
Qed.

(** A successful [gen_start_migration] reads exactly the schema files of
    the schema directory, in the order the directory lists them: each
    entry whose name does not start with a dot and ends in [.esdl] and
    that is a file, each once, and no other file. *)
Theorem gen_start_migration_reads ctx (w : World St) r w' :
  gen_start_migration ctx w = (Ok r, w') ->
  exists evs, w_log w' = (w_log w ++ evs)%list /\
    read_paths evs = List.filter (schema_selected (w_fs w)) (dir_entries (w_fs w) (schema_dir ctx)).
Proof.
  unfold gen_start_migration. intros E. apply context_ok, bind_ok in E as (items & w1 & E1 & E2).
  unfold read_dir in E1. apply io_call_ok_inv in E1 as (fs' & Hk & ->).
  destruct (bool_decide (schema_dir ctx ∈ fs_dirs (w_fs w))); [|discriminate].
  injection Hk as <- <-.
  apply bind_ok in E2 as (b & w2 & E3 & E4). injection E4 as _ <-.
  destruct (add_schema_entries_reads _ _ _ _ _ E3) as (_ & evs & Hl & Hr).
  exists (EvReadDir (schema_dir ctx) :: evs). rewrite Hl. simpl.
  rewrite <- app_assoc. split; [reflexivity|]. exact Hr.
Qed.

(** *** What a successful writer leaves on disk *)

(** The concatenation of the chunks written, in order. *)
Definition str_cat (chunks : list string) : string := fold_right String.append EmptyString chunks.

Lemma str_cat_app l1 l2 : str_cat (l1 ++ l2) = (str_cat l1 ++ str_cat l2)%string.
Proof.
  induction l1 as [|c l1 IH]; [reflexivity|]. simpl. unfold str_cat in *. simpl.
  rewrite IH. symmetry. apply FormatProofs.str_app_assoc.
Qed.

Lemma substring_full d : substring 0 (String.length d) d = d.
Proof. induction d as [|c d IH]; simpl; congruence. Qed.

Lemma write_full (p : path) (d acc : string) (G : gmap path string) (w : World St) (n : nat) (w' : World St) :
  String.length d <= w_accept w p d ->
  fs_files (w_fs w) = <[p := acc]> G ->
  write p d w = (Ok n, w') ->
  fs_files (w_fs w') = <[p := (acc ++ d)%string]> G /\ w_accept w' = w_accept w.
Proof.
  intros Hacc Hf E. unfold write in E. apply io_call_ok_inv in E as (fs' & Hk & ->).
  injection Hk as _ <-. cbn [set_fs w_fs w_accept log_ev fs_files]. split; [|reflexivity].
  rewrite Hf, lookup_insert_eq. cbn [default].
  replace (if Nat.ltb (String.length d) BUF_CAPACITY then String.length d
           else Nat.min (w_accept w p d) (String.length d)) with (String.length d)
    by (destruct (Nat.ltb _ _); [reflexivity|symmetry; apply Nat.min_r; exact Hacc]).
  rewrite substring_full. apply insert_insert_eq.
Qed.

Lemma write_lines_full (p : path) (ls : list string) (acc : string) (G : gmap path string) (w w' : World St) :
  (forall d, String.length d <= w_accept w p d) ->
  fs_files (w_fs w) = <[p := acc]> G ->
  write_lines p ls w = (Ok tt, w') ->
  fs_files (w_fs w') = <[p := (acc ++ str_cat (map (fun l => "  " ++ l ++ nl) ls))%string]> G /\
  w_accept w' = w_accept w.
Proof.
  revert acc w. induction ls as [|l ls IH]; intros acc w Hacc Hf E; simpl in E.
  - injection E as <-. rewrite Hf. simpl. rewrite FormatProofs.str_app_empty. auto.
  - apply bind_ok in E as (n & w1 & E1 & E2).
    destruct (write_full _ _ _ _ _ _ _ (Hacc _) Hf E1) as [Hf1 Ha1].
    assert (Hacc1 : forall d, String.length d <= w_accept w1 p d) by (rewrite Ha1; exact Hacc).
    destruct (IH _ _ Hacc1 Hf1 E2) as [Hf2 Ha2].
    rewrite Hf2, FormatProofs.str_app_assoc. split; [reflexivity|congruence].
Qed.

Lemma write_statements_full (p : path) (stmts : list string) (acc : string) (G : gmap path string) (w w' : World St) :
  (forall d, String.length d <= w_accept w p d) ->
  fs_files (w_fs w) = <[p := acc]> G ->
  write_statements p stmts w = (Ok tt, w') ->
  fs_files (w_fs w') = <[p := (acc ++ str_cat (body_lines stmts))%string]> G /\
  w_accept w' = w_accept w.
Proof.
  revert acc w. induction stmts as [|st stmts IH]; intros acc w Hacc Hf E; simpl in E.
  - injection E as <-. rewrite Hf. simpl. rewrite FormatProofs.str_app_empty. auto.
  - apply bind_ok in E as ([] & w1 & E1 & E2).
    destruct (write_lines_full _ _ _ _ _ _ Hacc Hf E1) as [Hf1 Ha1].
    assert (Hacc1 : forall d, String.length d <= w_accept w1 p d) by (rewrite Ha1; exact Hacc).
    destruct (IH _ _ Hacc1 Hf1 E2) as [Hf2 Ha2].
    rewrite Hf2. unfold body_lines. cbn [flat_map]. rewrite str_cat_app.
    rewrite FormatProofs.str_app_assoc. split; [reflexivity|congruence].
Qed.

Lemma attempt_remove_file_files p (w : World St) r w' :
  attempt (remove_file p) w = (r, w') ->
  delete p (fs_files (w_fs w')) = delete p (fs_files (w_fs w)) /\ w_accept w' = w_accept w.
Proof.
  unfold attempt. destruct (remove_file p w) as [r0 w0] eqn:E0. intros E.
  injection E as _ <-. unfold remove_file, io_call in E0. cbn [log_ev w_fs w_io_fails] in E0.
  destruct (w_io_fails w _); [injection E0 as _ <-; auto|].
  destruct (fs_files (w_fs w) !! p); injection E0 as _ <-; [|auto].
  cbn [set_fs w_fs fs_files w_accept log_ev]. split; [apply delete_delete_eq|reflexivity].
Qed.

(** When every write is accepted in full and the writer succeeds, the files
    on disk afterwards are those before, without the temporary file, and
    with the final path holding exactly the header, the body lines and the
    closing line, in order, the id being the one of C10. *)
Theorem write_migration_success_files descr parent (fp : path) (w w' : World St) :
  (forall p d, String.length d <= w_accept w p d) ->
  _write_migration descr parent fp w = (Ok tt, w') ->
  let stmts := map (fun s => s ++ ";") (confirmed descr) in
  exists h, hash_statements (hasher_new parent) stmts = Ok h /\
    fs_files (w_fs w') =
      <[fp := str_cat (migration_chunks (hasher_make_id h) parent stmts)]>
        (delete (tmp_path fp) (fs_files (w_fs w))).
Proof.
  intros Hacc E stmts. unfold _write_migration, with_context in E.
  match type of E with
  | match ?M w with _ => _ end = _ => destruct (M w) as [[[]|e] w1] eqn:Ein
  end; [|discriminate].
  injection E as <-. cbv zeta in Ein.
  destruct (bind_ok _ _ _ _ _ Ein) as (h & wa & Eh & Ein1). clear Ein.
  unfold lift in Eh. injection Eh as Eh <-.
  exists h. split; [exact Eh|]. fold stmts in Ein1. cbv beta in Ein1.
  rewrite tmp_path_eq in Ein1.
  destruct (bind_ok _ _ _ _ _ Ein1) as (b & wb & Eb & Ein2). clear Ein1.
  unfold path_exists in Eb. injection Eb as Eb <-. subst b.
  destruct (bind_ok _ _ _ _ _ Ein2) as ([] & wc & Ec & Ein3). clear Ein2.
  assert (Hc : fs_files (w_fs wc) = fs_files (w_fs w) /\ w_accept wc = w_accept w).
  { destruct (bool_decide _); cbn [negb] in Ec; [injection Ec as <-; auto|].
    unfold create_dir_all in Ec. apply io_call_ok_inv in Ec as (fs' & Hk & ->).
    injection Hk as <-. auto. }
  clear Ec. destruct Hc as [Hfc Hac].
  destruct (bind_ok _ _ _ _ _ Ein3) as (r & wd & Ed & Ein4). clear Ein3.
  destruct (attempt_remove_file_files _ _ _ _ Ed) as [Hfd Had]. clear Ed.
  destruct (bind_ok _ _ _ _ _ Ein4) as ([] & we & Ee & Ein5). clear Ein4.
  assert (Hfe : fs_files (w_fs we) = <[tmp_path fp := EmptyString]> (fs_files (w_fs wd))
                /\ w_accept we = w_accept wd).
  { unfold create_file in Ee. apply io_call_ok_inv in Ee as (fs' & Hk & ->).
    destruct (bool_decide _); [|discriminate]. injection Hk as <-. auto. }
  clear Ee. destruct Hfe as [Hfe Hae].
  set (G := fs_files (w_fs wd)) in Hfe.
  assert (HA : forall wx : World St, w_accept wx = w_accept w ->
            forall d, String.length d <= w_accept wx (tmp_path fp) d)
    by (intros wx Hx d; rewrite Hx; apply Hacc).
  destruct (bind_ok _ _ _ _ _ Ein5) as (n1 & wf & Ef & Ein6). clear Ein5.
  destruct (write_full _ _ _ _ _ _ _ (HA we ltac:(congruence) _) Hfe Ef) as [Hff Haf]. clear Ef.
  destruct (bind_ok _ _ _ _ _ Ein6) as (n2 & wg & Eg & Ein7). clear Ein6.
  destruct (write_full _ _ _ _ _ _ _ (HA wf ltac:(congruence) _) Hff Eg) as [Hfg Hag]. clear Eg.
  destruct (bind_ok _ _ _ _ _ Ein7) as (n3 & wh & Eh3 & Ein8). clear Ein7.
  destruct (write_full _ _ _ _ _ _ _ (HA wg ltac:(congruence) _) Hfg Eh3) as [Hfh Hah]. clear Eh3.
  destruct (bind_ok _ _ _ _ _ Ein8) as ([] & wi & Ei & Ein9). clear Ein8.
  destruct (write_statements_full _ _ _ _ _ _ (HA wh ltac:(congruence)) Hfh Ei) as [Hfi Hai].
  clear Ei.
  destruct (bind_ok _ _ _ _ _ Ein9) as (n4 & wj & Ej & Ein10). clear Ein9.
  destruct (write_full _ _ _ _ _ _ _ (HA wi ltac:(congruence) _) Hfi Ej) as [Hfj Haj]. clear Ej.
  destruct (bind_ok _ _ _ _ _ Ein10) as ([] & wk & Ek & Ein11). clear Ein10.
  unfold flush in Ek. apply io_call_ok_inv in Ek as (fs' & Hk & ->).
  injection Hk as <-.
  destruct (bind_ok _ _ _ _ _ Ein11) as ([] & wl & El & Ein12). clear Ein11.
  injection Ein12 as <-.
  unfold rename in El. apply io_call_ok_inv in El as (fs' & Hk & ->).
  cbn [set_fs w_fs log_ev] in Hk. rewrite Hfj, lookup_insert_eq in Hk.
  injection Hk as <-. cbn [set_fs w_fs fs_files].
  rewrite delete_insert_eq. unfold G. rewrite Hfd, Hfc.
  f_equal. unfold migration_chunks. rewrite str_cat_app. cbn [str_cat fold_right].
  rewrite (str_cat_app (body_lines stmts)). cbn [str_cat fold_right].
  rewrite !FormatProofs.str_app_assoc. reflexivity.
Qed.

End More.

End CreateMore.

(* ===================================================================== *)
(** ** create.rs on concrete runs *)

Module CreateScenarios.
Import Create Scenarios CreateProofs.

Lemma first_semicolon_bound s i n :
  first_semicolon s i = Some n -> i < n <= i + String.length s.
Proof.
  revert i. induction s as [|c s IH]; intros i; simpl; [discriminate|].
  destruct (Ascii.eqb c ";"%char).
  - intros E. injection E as <-. lia.
  - intros E. specialize (IH _ E). lia.
Qed.

Lemma simple_preparser_progress s n :
  full_statement s = Some n -> 0 < n <= String.length s.
Proof. apply first_semicolon_bound. Qed.

(** C2 (counterexample): the describe query fails and [ABORT MIGRATION]
    is then sent and rejected; [create] returns the describe error alone,
    and the abort's error appears nowhere in the result. *)
Lemma both_fail_abort_error_dropped :
  fst (create 5 create_cmd (world both_fail_srv fs_m1)) = Err (EProtocol "describe failed") /\
  In (EvExecute "ABORT MIGRATION") (w_log (snd (create 5 create_cmd (world both_fail_srv fs_m1)))) /\
  fst (srv_execute "ABORT MIGRATION" both_fail_srv) = Err (EProtocol "abort failed").
Proof. vm_compute. split; [reflexivity|]. split; [|reflexivity]. simpl. tauto. Qed.

Lemma create_abort_after_loop_witness :
  non_interactive create_cmd = true /\
  read_all (cfg create_cmd) (w_fs (world both_fail_srv fs_m1)) = Ok [("m1", "m1")] /\
  gen_start_migration (cfg create_cmd) (world both_fail_srv fs_m1) =
    (Ok (start_text (world both_fail_srv fs_m1), start_sm (world both_fail_srv fs_m1)),
     snd (gen_start_migration (cfg create_cmd) (world both_fail_srv fs_m1))) /\
  execute (start_text (world both_fail_srv fs_m1))
      (snd (gen_start_migration (cfg create_cmd) (world both_fail_srv fs_m1))) =
    (Ok tt, after_start (world both_fail_srv fs_m1)) /\
  query_last (after_start (world both_fail_srv fs_m1)) =
    (Ok (last_key [("m1", "m1")]), after_tip (world both_fail_srv fs_m1)) /\
  run_non_interactive 5 (cfg create_cmd) (length [("m1", "m1")] + 1)
      (after_tip (world both_fail_srv fs_m1)) =
    (Err (EProtocol "describe failed"),
     snd (run_non_interactive 5 (cfg create_cmd) 2 (after_tip (world both_fail_srv fs_m1)))) /\
  execute "ABORT MIGRATION"
      (snd (run_non_interactive 5 (cfg create_cmd) 2 (after_tip (world both_fail_srv fs_m1)))) =
    (Err (EProtocol "abort failed"),
     snd (execute "ABORT MIGRATION"
       (snd (run_non_interactive 5 (cfg create_cmd) 2 (after_tip (world both_fail_srv fs_m1)))))) /\
  (create 5 create_cmd (world both_fail_srv fs_m1) =
     (Err (EProtocol "describe failed"),
      snd (execute "ABORT MIGRATION"
        (snd (run_non_interactive 5 (cfg create_cmd) 2 (after_tip (world both_fail_srv fs_m1)))))) /\
   w_log (snd (execute "ABORT MIGRATION"
        (snd (run_non_interactive 5 (cfg create_cmd) 2 (after_tip (world both_fail_srv fs_m1)))))) =
   (w_log (snd (run_non_interactive 5 (cfg create_cmd) 2 (after_tip (world both_fail_srv fs_m1))))
    ++ [EvExecute "ABORT MIGRATION"])%list).
Proof.
  assert (h1 : non_interactive create_cmd = true) by reflexivity.
  assert (h2 : read_all (cfg create_cmd) (w_fs (world both_fail_srv fs_m1)) = Ok [("m1", "m1")])
    by (vm_compute; reflexivity).
  assert (h3 : gen_start_migration (cfg create_cmd) (world both_fail_srv fs_m1) =
    (Ok (start_text (world both_fail_srv fs_m1), start_sm (world both_fail_srv fs_m1)),
     snd (gen_start_migration (cfg create_cmd) (world both_fail_srv fs_m1))))
    by (vm_compute; reflexivity).
  assert (h4 : execute (start_text (world both_fail_srv fs_m1))
      (snd (gen_start_migration (cfg create_cmd) (world both_fail_srv fs_m1))) =
    (Ok tt, after_start (world both_fail_srv fs_m1))) by (vm_compute; reflexivity).
  assert (h5 : query_last (after_start (world both_fail_srv fs_m1)) =
    (Ok (last_key [("m1", "m1")]), after_tip (world both_fail_srv fs_m1)))
    by (vm_compute; reflexivity).
  assert (h6 : run_non_interactive 5 (cfg create_cmd) (length [("m1", "m1")] + 1)
      (after_tip (world both_fail_srv fs_m1)) =
    (Err (EProtocol "describe failed"),
     snd (run_non_interactive 5 (cfg create_cmd) 2 (after_tip (world both_fail_srv fs_m1)))))
    by (vm_compute; reflexivity).
  assert (h7 : execute "ABORT MIGRATION"
      (snd (run_non_interactive 5 (cfg create_cmd) 2 (after_tip (world both_fail_srv fs_m1)))) =
    (Err (EProtocol "abort failed"),
     snd (execute "ABORT MIGRATION"
       (snd (run_non_interactive 5 (cfg create_cmd) 2 (after_tip (world both_fail_srv fs_m1)))))))
    by (vm_compute; reflexivity).
  exact (conj h1 (conj h2 (conj h3 (conj h4 (conj h5 (conj h6 (conj h7
    (create_abort_after_loop 5 create_cmd (world both_fail_srv fs_m1) _ _ _ _ _ _ _ _ _ _
       h1 h2 h3 h4 h5 h6 h7)))))))).
Defined.

Lemma create_stale_history_no_write_witness :
  read_all (cfg create_cmd) (w_fs (world stale_srv fs_m1)) = Ok [("m1", "m1")] /\
  gen_start_migration (cfg create_cmd) (world stale_srv fs_m1) =
    (Ok (start_text (world stale_srv fs_m1), start_sm (world stale_srv fs_m1)),
     snd (gen_start_migration (cfg create_cmd) (world stale_srv fs_m1))) /\
  execute (start_text (world stale_srv fs_m1))
      (snd (gen_start_migration (cfg create_cmd) (world stale_srv fs_m1))) =
    (Ok tt, after_start (world stale_srv fs_m1)) /\
  query_last (after_start (world stale_srv fs_m1)) =
    (Ok (Some "m2"), after_tip (world stale_srv fs_m1)) /\
  Some "m2" <> last_key [("m1", "m1")] /\
  (create 5 create_cmd (world stale_srv fs_m1) =
     (Err (EMsg VALIDATION_MSG), after_tip (world stale_srv fs_m1)) /\
   w_fs (after_tip (world stale_srv fs_m1)) = w_fs (world stale_srv fs_m1) /\
   exists evs, w_log (after_tip (world stale_srv fs_m1)) = (w_log (world stale_srv fs_m1) ++ evs)%list /\
     Forall (fun ev => is_fs_write ev = false) evs).
Proof.
  assert (h1 : read_all (cfg create_cmd) (w_fs (world stale_srv fs_m1)) = Ok [("m1", "m1")])
    by (vm_compute; reflexivity).
  assert (h2 : gen_start_migration (cfg create_cmd) (world stale_srv fs_m1) =
    (Ok (start_text (world stale_srv fs_m1), start_sm (world stale_srv fs_m1)),
     snd (gen_start_migration (cfg create_cmd) (world stale_srv fs_m1))))
    by (vm_compute; reflexivity).
  assert (h3 : execute (start_text (world stale_srv fs_m1))
      (snd (gen_start_migration (cfg create_cmd) (world stale_srv fs_m1))) =
    (Ok tt, after_start (world stale_srv fs_m1))) by (vm_compute; reflexivity).
  assert (h4 : query_last (after_start (world stale_srv fs_m1)) =
    (Ok (Some "m2"), after_tip (world stale_srv fs_m1))) by (vm_compute; reflexivity).
  assert (h5 : Some "m2" <> last_key [("m1", "m1")]) by (vm_compute; discriminate).
  exact (conj h1 (conj h2 (conj h3 (conj h4 (conj h5
    (create_stale_history_no_write 5 create_cmd (world stale_srv fs_m1) _ _ _ _ _ _ _
       h1 h2 h3 h4 h5)))))).
Defined.

(** C6 (counterexample): with the server at [m2] and the disk at [m1],
    [create] sends [START MIGRATION TO {..}] to the server before it asks
    for the server's tip, and only then fails the history check. *)
Lemma stale_start_sent_before_check :
  create 5 create_cmd (world stale_srv fs_m1) =
    (Err (EMsg VALIDATION_MSG), after_tip (world stale_srv fs_m1)) /\
  w_log (after_tip (world stale_srv fs_m1)) =
    [EvReadDir schema; EvExecute ("START MIGRATION TO {" ++ nl ++ "};" ++ nl); EvQuery LAST_QUERY].
Proof. split; vm_compute; reflexivity. Qed.

Lemma create_start_before_history_check_witness :
  read_all (cfg create_cmd) (w_fs (world stale_srv fs_m1)) = Ok [("m1", "m1")] /\
  gen_start_migration (cfg create_cmd) (world stale_srv fs_m1) =
    (Ok (start_text (world stale_srv fs_m1), start_sm (world stale_srv fs_m1)),
     snd (gen_start_migration (cfg create_cmd) (world stale_srv fs_m1))) /\
  execute (start_text (world stale_srv fs_m1))
      (snd (gen_start_migration (cfg create_cmd) (world stale_srv fs_m1))) =
    (Ok tt, after_start (world stale_srv fs_m1)) /\
  query_last (after_start (world stale_srv fs_m1)) =
    (Ok (Some "m2"), after_tip (world stale_srv fs_m1)) /\
  Some "m2" <> last_key [("m1", "m1")] /\
  (create 5 create_cmd (world stale_srv fs_m1) =
     (Err (EMsg VALIDATION_MSG), after_tip (world stale_srv fs_m1)) /\
   (exists rest, start_text (world stale_srv fs_m1) = ("START MIGRATION TO {" ++ nl ++ rest)) /\
   w_log (after_tip (world stale_srv fs_m1)) =
     (w_log (snd (gen_start_migration (cfg create_cmd) (world stale_srv fs_m1)))
      ++ [EvExecute (start_text (world stale_srv fs_m1)); EvQuery LAST_QUERY])%list).
Proof.
  assert (h1 : read_all (cfg create_cmd) (w_fs (world stale_srv fs_m1)) = Ok [("m1", "m1")])
    by (vm_compute; reflexivity).
  assert (h2 : gen_start_migration (cfg create_cmd) (world stale_srv fs_m1) =
    (Ok (start_text (world stale_srv fs_m1), start_sm (world stale_srv fs_m1)),
     snd (gen_start_migration (cfg create_cmd) (world stale_srv fs_m1))))
    by (vm_compute; reflexivity).
  assert (h3 : execute (start_text (world stale_srv fs_m1))
      (snd (gen_start_migration (cfg create_cmd) (world stale_srv fs_m1))) =
    (Ok tt, after_start (world stale_srv fs_m1))) by (vm_compute; reflexivity).
  assert (h4 : query_last (after_start (world stale_srv fs_m1)) =
    (Ok (Some "m2"), after_tip (world stale_srv fs_m1))) by (vm_compute; reflexivity).
  assert (h5 : Some "m2" <> last_key [("m1", "m1")]) by (vm_compute; discriminate).
  exact (conj h1 (conj h2 (conj h3 (conj h4 (conj h5
    (create_start_before_history_check 5 create_cmd (world stale_srv fs_m1) _ _ _ _ _ _ _
       h1 h2 h3 h4 h5)))))).
Defined.

Lemma apply_proposals_spec_witness :
  (forall q (s : unit), fst (srv_execute q s) = Ok tt) /\
  exists w', apply_proposals mixed_proposals unit_world =
      (blocked_result (snd (split_at_input (safe_statements mixed_proposals))), w') /\
    w_log w' = (w_log unit_world
                ++ map (fun st => EvExecute (text st)) (fst (split_at_input (safe_statements mixed_proposals)))
                ++ blocked_events (snd (split_at_input (safe_statements mixed_proposals))))%list.
Proof.
  assert (h : forall q (s : unit), fst (srv_execute q s) = Ok tt) by reflexivity.
  exact (conj h (apply_proposals_spec h mixed_proposals unit_world)).
Defined.

(** C4 (code bug): the byte counts returned by [file.write] are ignored.
    A statement line of at least [BUF_CAPACITY] bytes bypasses the
    writer's buffer and goes to the file in one [write]; when the file
    accepts only a prefix, [create] still succeeds: the temporary file is
    flushed and renamed onto the final path, which then holds a migration
    whose statement is cut after [BUF_CAPACITY] bytes. *)
Theorem short_write_truncates_migration :
  BUF_CAPACITY < String.length ("  " ++ huge_statement ++ ";" ++ nl) /\
  fst (create 5 create_cmd short_write_world) = Ok tt /\
  In (EvWrite (tmp_path (join mig_dir "00002.edgeql")) ("  " ++ huge_statement ++ ";" ++ nl))
     (w_log (snd (create 5 create_cmd short_write_world))) /\
  In (EvRename (tmp_path (join mig_dir "00002.edgeql")) (join mig_dir "00002.edgeql"))
     (w_log (snd (create 5 create_cmd short_write_world))) /\
  fs_files (w_fs (snd (create 5 create_cmd short_write_world))) !! join mig_dir "00002.edgeql" =
    Some ("CREATE MIGRATION m9084" ++ nl ++ "    ONTO m1" ++ nl ++ "{" ++ nl
          ++ substring 0 BUF_CAPACITY ("  " ++ huge_statement ++ ";" ++ nl)
          ++ "};" ++ nl).
Proof.
  split; [apply Nat.ltb_lt; vm_compute; reflexivity|].
  vm_compute. split; [reflexivity|]. split; [simpl; tauto|]. split; [simpl; tauto|].
  reflexivity.
Qed.

Lemma read_schema_file_spec_witness :
  (forall s n, full_statement s = Some n -> 0 < n <= String.length s) /\
  w_io_fails (world stale_srv fs_unterminated) (EvReadFile schema_file) = false /\
  fs_files (w_fs (world stale_srv fs_unterminated)) !! schema_file =
    Some ("type A;" ++ nl ++ "type B" ++ nl) /\
  exists off, consumed ("type A;" ++ nl ++ "type B" ++ nl) off /\
    full_statement (str_drop off ("type A;" ++ nl ++ "type B" ++ nl)) = None /\
    fst (read_schema_file schema_file (world stale_srv fs_unterminated)) =
      (if is_empty (str_drop off ("type A;" ++ nl ++ "type B" ++ nl))
       then Ok ("type A;" ++ nl ++ "type B" ++ nl)
       else Err (EContext ("could not read schema file " ++ display schema_file)
                   (EMsg "final statement does not end with a semicolon"))).
Proof.
  assert (h1 : forall s n, full_statement s = Some n -> 0 < n <= String.length s)
    by exact simple_preparser_progress.
  assert (h2 : w_io_fails (world stale_srv fs_unterminated) (EvReadFile schema_file) = false)
    by reflexivity.
  assert (h3 : fs_files (w_fs (world stale_srv fs_unterminated)) !! schema_file =
    Some ("type A;" ++ nl ++ "type B" ++ nl)) by (vm_compute; reflexivity).
  exact (conj h1 (conj h2 (conj h3
    (read_schema_file_spec schema_file (world stale_srv fs_unterminated) _ h1 h2 h3)))).
Defined.

Lemma write_migration_hashes_suffixed_witness :
  _write_migration two_statements "m1" (join mig_dir "00002.edgeql") (world stale_srv fs_m1) =
    (Ok tt, snd (_write_migration two_statements "m1" (join mig_dir "00002.edgeql")
                   (world stale_srv fs_m1))) /\
  exists h, hash_statements (hasher_new "m1") (map (fun s => s ++ ";") (confirmed two_statements)) = Ok h /\
    w_log (snd (_write_migration two_statements "m1" (join mig_dir "00002.edgeql")
                  (world stale_srv fs_m1))) =
      (w_log (world stale_srv fs_m1)
       ++ (if bool_decide (is_Some (fs_files (w_fs (world stale_srv fs_m1)) !! join mig_dir "00002.edgeql")
                           \/ join mig_dir "00002.edgeql" ∈ fs_dirs (w_fs (world stale_srv fs_m1)))
           then [] else [EvCreateDirAll (path_parent (join mig_dir "00002.edgeql"))])
       ++ [EvRemoveFile (tmp_path (join mig_dir "00002.edgeql"));
           EvCreateFile (tmp_path (join mig_dir "00002.edgeql"))]
       ++ map (EvWrite (tmp_path (join mig_dir "00002.edgeql")))
            (migration_chunks (hasher_make_id h) "m1"
               (map (fun s => (s ++ ";")%string) (confirmed two_statements)))
       ++ [EvFlush (tmp_path (join mig_dir "00002.edgeql"));
           EvRename (tmp_path (join mig_dir "00002.edgeql")) (join mig_dir "00002.edgeql")])%list.
Proof.
  assert (h : _write_migration two_statements "m1" (join mig_dir "00002.edgeql") (world stale_srv fs_m1) =
    (Ok tt, snd (_write_migration two_statements "m1" (join mig_dir "00002.edgeql")
                   (world stale_srv fs_m1)))) by (vm_compute; reflexivity).
  exact (conj h (write_migration_hashes_suffixed _ _ _ _ _ h)).
Defined.

(** C8 (code bug): a migration record whose [generated_by] carries a tag
    other than [DevMode] and [DDLStatement] fails to decode. *)
Theorem unknown_generated_by_rejected :
  exists e, DbMigration.decode_db_migration
    {| DbMigration.raw_name := "m1"; DbMigration.raw_script := "CREATE TYPE A;";
       DbMigration.raw_parent_names := []; DbMigration.raw_generated_by := Some "SomeFutureTag" |}
    = Err e.
Proof. eexists. vm_compute. reflexivity. Qed.

Lemma write_migration_failure_keeps_final_witness :
  _write_migration two_statements "m1" (join mig_dir "00001.edgeql") flush_fail_world =
    (Err (EContext ("could not write migration file " ++ display (join mig_dir "00001.edgeql"))
            (EIo "flush" (tmp_path (join mig_dir "00001.edgeql")))),
     snd (_write_migration two_statements "m1" (join mig_dir "00001.edgeql") flush_fail_world)) /\
  fs_files (w_fs (snd (_write_migration two_statements "m1" (join mig_dir "00001.edgeql")
                         flush_fail_world))) !! join mig_dir "00001.edgeql" =
    fs_files (w_fs flush_fail_world) !! join mig_dir "00001.edgeql".
Proof.
  assert (h : _write_migration two_statements "m1" (join mig_dir "00001.edgeql") flush_fail_world =
    (Err (EContext ("could not write migration file " ++ display (join mig_dir "00001.edgeql"))
            (EIo "flush" (tmp_path (join mig_dir "00001.edgeql")))),
     snd (_write_migration two_statements "m1" (join mig_dir "00001.edgeql") flush_fail_world)))
    by (vm_compute; reflexivity).
  exact (conj h (write_migration_failure_keeps_final _ _ _ _ _ _ h)).
Defined.

End CreateScenarios.

(* ===================================================================== *)
(** ** The further properties of create.rs on concrete runs *)
(* ===================================================================== *)

Module CreateMoreScenarios.
Import Create CreateProofs Scenarios FormatProofs CreateMore.

Lemma describe_loop_spins_witness :
  srv_describe (w_srv frozen_world) = (Ok low_confidence, w_srv frozen_world) /\
  proposed low_confidence <> [] /\
  Forall (fun p => PrimFloat.leb SAFE_CONFIDENCE (confidence p) = false) (proposed low_confidence) /\
  (fst (describe_loop 3 frozen_world) = Err EFuel /\
   w_log (snd (describe_loop 3 frozen_world)) =
     (w_log frozen_world ++ repeat (EvQuery DESCRIBE_QUERY) 3)%list).
Proof.
  assert (h1 : srv_describe (w_srv frozen_world) = (Ok low_confidence, w_srv frozen_world))
    by reflexivity.
  assert (h2 : proposed low_confidence <> []) by discriminate.
  assert (h3 : Forall (fun p => PrimFloat.leb SAFE_CONFIDENCE (confidence p) = false)
                 (proposed low_confidence))
    by (apply List.Forall_cons; [vm_compute; reflexivity|apply List.Forall_nil]).
  exact (conj h1 (conj h2 (conj h3 (describe_loop_spins 3 frozen_world low_confidence h1 h2 h3)))).
Defined.

Definition unterminated_error : error :=
  EContext "could not read schema in dbschema"
    (EContext "could not read schema file dbschema/default.esdl"
       (EMsg "final statement does not end with a semicolon")).

Lemma create_schema_failure_server_untouched_witness :
  read_all (cfg create_cmd) (w_fs (world stale_srv fs_unterminated)) = Ok [] /\
  gen_start_migration (cfg create_cmd) (world stale_srv fs_unterminated) =
    (Err unterminated_error,
     snd (gen_start_migration (cfg create_cmd) (world stale_srv fs_unterminated))) /\
  (create 5 create_cmd (world stale_srv fs_unterminated) =
     (Err unterminated_error,
      snd (gen_start_migration (cfg create_cmd) (world stale_srv fs_unterminated))) /\
   w_srv (snd (gen_start_migration (cfg create_cmd) (world stale_srv fs_unterminated))) =
     w_srv (world stale_srv fs_unterminated) /\
   exists evs,
     w_log (snd (gen_start_migration (cfg create_cmd) (world stale_srv fs_unterminated))) =
       (w_log (world stale_srv fs_unterminated) ++ evs)%list /\
     Forall (fun ev => is_server_request ev = false) evs).
Proof.
  assert (h1 : read_all (cfg create_cmd) (w_fs (world stale_srv fs_unterminated)) = Ok [])
    by (vm_compute; reflexivity).
  assert (h2 : gen_start_migration (cfg create_cmd) (world stale_srv fs_unterminated) =
    (Err unterminated_error,
     snd (gen_start_migration (cfg create_cmd) (world stale_srv fs_unterminated))))
    by (vm_compute; reflexivity).
  exact (conj h1 (conj h2 (create_schema_failure_server_untouched 5 create_cmd _ _ _ _ h1 h2))).
Defined.

Lemma create_interactive_leaves_started_witness :
  non_interactive interactive_cmd = false /\
  read_all (cfg interactive_cmd) (w_fs (world long_srv fs_m1)) = Ok [("m1", "m1")] /\
  gen_start_migration (cfg interactive_cmd) (world long_srv fs_m1) =
    (Ok (start_text (world long_srv fs_m1), start_sm (world long_srv fs_m1)),
     snd (gen_start_migration (cfg interactive_cmd) (world long_srv fs_m1))) /\
  execute (start_text (world long_srv fs_m1))
      (snd (gen_start_migration (cfg interactive_cmd) (world long_srv fs_m1))) =
    (Ok tt, after_start (world long_srv fs_m1)) /\
  query_last (after_start (world long_srv fs_m1)) =
    (Ok (last_key [("m1", "m1")]), after_tip (world long_srv fs_m1)) /\
  (create 5 interactive_cmd (world long_srv fs_m1) =
     (Err (EMsg INTERACTIVE_MSG), after_tip (world long_srv fs_m1)) /\
   exists evs, w_log (after_tip (world long_srv fs_m1)) =
     (w_log (world long_srv fs_m1) ++ evs
      ++ [EvExecute (start_text (world long_srv fs_m1)); EvQuery LAST_QUERY])%list /\
     Forall (fun ev => is_server_request ev = false) evs).
Proof.
  assert (h1 : non_interactive interactive_cmd = false) by reflexivity.
  assert (h2 : read_all (cfg interactive_cmd) (w_fs (world long_srv fs_m1)) = Ok [("m1", "m1")])
    by (vm_compute; reflexivity).
  assert (h3 : gen_start_migration (cfg interactive_cmd) (world long_srv fs_m1) =
    (Ok (start_text (world long_srv fs_m1), start_sm (world long_srv fs_m1)),
     snd (gen_start_migration (cfg interactive_cmd) (world long_srv fs_m1))))
    by (vm_compute; reflexivity).
  assert (h4 : execute (start_text (world long_srv fs_m1))
      (snd (gen_start_migration (cfg interactive_cmd) (world long_srv fs_m1))) =
    (Ok tt, after_start (world long_srv fs_m1))) by (vm_compute; reflexivity).
  assert (h5 : query_last (after_start (world long_srv fs_m1)) =
    (Ok (last_key [("m1", "m1")]), after_tip (world long_srv fs_m1)))
    by (vm_compute; reflexivity).
  exact (conj h1 (conj h2 (conj h3 (conj h4 (conj h5
    (create_interactive_leaves_started 5 interactive_cmd _ _ _ _ _ _ _ h1 h2 h3 h4 h5)))))).
Defined.

Lemma gen_start_migration_reads_witness :
  gen_start_migration (cfg create_cmd) (world stale_srv fs_schema) =
    (Ok (start_text (world stale_srv fs_schema), start_sm (world stale_srv fs_schema)),
     snd (gen_start_migration (cfg create_cmd) (world stale_srv fs_schema))) /\
  exists evs,
    w_log (snd (gen_start_migration (cfg create_cmd) (world stale_srv fs_schema))) =
      (w_log (world stale_srv fs_schema) ++ evs)%list /\
    read_paths evs =
      List.filter (schema_selected (w_fs (world stale_srv fs_schema)))
        (dir_entries (w_fs (world stale_srv fs_schema)) (schema_dir (cfg create_cmd))).
Proof.
  assert (h : gen_start_migration (cfg create_cmd) (world stale_srv fs_schema) =
    (Ok (start_text (world stale_srv fs_schema), start_sm (world stale_srv fs_schema)),
     snd (gen_start_migration (cfg create_cmd) (world stale_srv fs_schema))))
    by (vm_compute; reflexivity).
  exact (conj h (gen_start_migration_reads _ _ _ _ h)).
Defined.

Lemma format05_length_witness : 42 < 10 ^ 5 /\ String.length (format05 42) = 5.
Proof.
  assert (h : 42 < 10 ^ 5) by (apply Nat.ltb_lt; vm_compute; reflexivity).
  exact (conj h (format05_length 42 h)).
Defined.

Lemma write_migration_success_files_witness :
  (forall p d, String.length d <= w_accept (world stale_srv fs_m1) p d) /\
  _write_migration two_statements "m1" (join mig_dir "00002.edgeql") (world stale_srv fs_m1) =
    (Ok tt, snd (_write_migration two_statements "m1" (join mig_dir "00002.edgeql")
                   (world stale_srv fs_m1))) /\
  exists h, hash_statements (hasher_new "m1") (map (fun s => s ++ ";") (confirmed two_statements)) = Ok h /\
    fs_files (w_fs (snd (_write_migration two_statements "m1" (join mig_dir "00002.edgeql")
                          (world stale_srv fs_m1)))) =
      <[join mig_dir "00002.edgeql" :=
          str_cat (migration_chunks (hasher_make_id h) "m1"
                     (map (fun s => (s ++ ";")%string) (confirmed two_statements)))]>
        (delete (tmp_path (join mig_dir "00002.edgeql")) (fs_files (w_fs (world stale_srv fs_m1)))).
Proof.
  assert (h1 : forall p d, String.length d <= w_accept (world stale_srv fs_m1) p d)
    by (intros p d; apply le_n).
  assert (h2 : _write_migration two_statements "m1" (join mig_dir "00002.edgeql") (world stale_srv fs_m1) =
    (Ok tt, snd (_write_migration two_statements "m1" (join mig_dir "00002.edgeql")
                   (world stale_srv fs_m1)))) by (vm_compute; reflexivity).
  exact (conj h1 (conj h2 (write_migration_success_files _ _ _ _ _ h1 h2))).
Defined.

End CreateMoreScenarios.
